(** * Pirates_Babylon: the wave field, the day-night clock, the reflection
      pre-pass and the boat dynamics of the scene script

    The scene script computes with JavaScript numbers.  This development
    reads them as real numbers: [Math.sin], [Math.cos] and [Math.max] are
    [sin], [cos] and [Rmax], and a numeric literal is the real it denotes.
    Rounding, infinities and NaN are outside the model. *)

From stdpp Require Import base option list gmap strings.
From Stdlib Require Import Reals Lra.

Open Scope R_scope.

(** ** Vectors and colours of the engine *)

Record Vector3 : Type := mkVector3 { vx : R; vy : R; vz : R }.

Record Color3 : Type := mkColor3 { cr : R; cg : R; cb : R }.

Module V3.

(** Modelled from the spec: the engine's [Vector3] arithmetic is not part
    of the script; [Reflect v n] is [v - 2 (v . n) n], the others are the
    componentwise operations their names say. *)
Definition Dot (a b : Vector3) : R :=
  vx a * vx b + vy a * vy b + vz a * vz b.

Definition add (a b : Vector3) : Vector3 :=
  mkVector3 (vx a + vx b) (vy a + vy b) (vz a + vz b).

Definition subtract (a b : Vector3) : Vector3 :=
  mkVector3 (vx a - vx b) (vy a - vy b) (vz a - vz b).

Definition scale (a : Vector3) (k : R) : Vector3 :=
  mkVector3 (vx a * k) (vy a * k) (vz a * k).

Definition Reflect (v n : Vector3) : Vector3 :=
  subtract v (scale n (2 * Dot v n)).

Definition Zero : Vector3 := mkVector3 0 0 0.

End V3.

(** ** Constants of the script *)

Definition BOAT_BASE_HEIGHT : R := 16.7.
Definition BOAT_ROTATION_Y : R := PI.
Definition WORLD_SIZE : R := 40000.
Definition HALF_WORLD_SIZE : R := WORLD_SIZE / 2.

Definition moveSpeed : R := 0.5.
Definition turnSpeed : R := 0.005.
Definition dayNightCycleSpeed : R := 0.00003.

(** ** Wave field *)

(** The helper [waveHeight], with its own fixed frequency and amplitude. *)
Definition waveHeight (x z time : R) : R :=
  let waveFrequency := 0.05 in
  let waveAmplitude := 4.0 in
  let wave := sin (x * waveFrequency + time)
              * sin (z * waveFrequency * 1.5 + time * 0.7) in
  wave * waveAmplitude.

(** The expression the tick evaluates at the boat and at its probe points:
    [Math.sin(x * newFrequency + now) * Math.sin(z * newFrequency * 1.5 +
    now * 0.7)], then [wave * newAmplitude]. *)
Definition hostWave (x z now newFrequency : R) : R :=
  sin (x * newFrequency + now) * sin (z * newFrequency * 1.5 + now * 0.7).

Definition hostHeight (x z now newAmplitude newFrequency : R) : R :=
  hostWave x z now newFrequency * newAmplitude.

(** The wave term of the water vertex shader and the displacement it adds
    to [position.y]. *)
Definition shaderWave (px pz time waveFrequency : R) : R :=
  sin (px * waveFrequency + time) * cos (pz * waveFrequency * 1.5 + time * 0.7).

Definition shaderDisplacement (px pz time waveAmplitude waveFrequency : R) : R :=
  shaderWave px pz time waveFrequency * waveAmplitude.

(** The formula the specification gives for the wave field. *)
Definition referenceHeight (x z t a f : R) : R :=
  a * sin (x * f + t) * sin (z * 1.5 * f + 0.7 * t).

Definition lerp (a b t : R) : R := a + (b - a) * t.

Definition lerpColor (c1 c2 : Color3) (t : R) : Color3 :=
  mkColor3 (cr c1 + (cr c2 - cr c1) * t)
           (cg c1 + (cg c2 - cg c1) * t)
           (cb c1 + (cb c2 - cb c1) * t).

(** ** Wave parameters *)

Definition waveStrength (now : R) : R := 0.5 + 0.5 * sin (now * 0.05).

Definition minAmplitude : R := 1.0.
Definition maxAmplitude : R := 7.0.
Definition minFrequency : R := 0.005.
Definition maxFrequency : R := 0.03.

Definition amplitudeOf (s : R) : R :=
  minAmplitude + (maxAmplitude - minAmplitude) * s.

Definition frequencyOf (s : R) : R :=
  minFrequency + (maxFrequency - minFrequency) * s.

Definition newAmplitude (now : R) : R := amplitudeOf (waveStrength now).
Definition newFrequency (now : R) : R := frequencyOf (waveStrength now).

(** ** Day-night clock *)

Definition nightDuration : R := 0.5.
Definition dayNightRatio : R := 1.0 - nightDuration.

Definition cycle (timeOfDay : R) : R := sin (timeOfDay + PI / 2).

Definition inclinationFactor (timeOfDay : R) : R :=
  Rmax 0 ((cycle timeOfDay + nightDuration) / dayNightRatio).

(** ** Scene state *)

Record Mesh : Type := mkMesh { position : Vector3; rotation : Vector3 }.

Record Camera : Type := mkCamera { camPosition : Vector3; camTarget : Vector3 }.

Inductive CameraId : Type := PrimaryCamera | ReflectionCamera.

Record Plane : Type := mkPlane { planeNormal : Vector3; planeD : R }.

(** What the tick pushes to the water material, the sky material and the
    lights.  The sun position and the reflection matrix come from engine
    internals (the sky material and the cameras' matrices) and are left
    out. *)
Record Uniforms : Type := mkUniforms {
  uTime : R;
  uWaveAmplitude : R;
  uWaveFrequency : R;
  uColorBlendIntensity : R;
  uSunColor : Color3
}.

Record Lighting : Type := mkLighting {
  skyInclination : R;
  sunEmissive : Color3;
  hemiDiffuse : Color3;
  hemiIntensity : R;
  sunIntensity : R
}.

Record Scene : Type := mkScene {
  boatContainer : option Mesh;
  boatYaw : R;
  timeOfDay : R;
  inputMap : gmap string bool;
  clouds : list Vector3;
  camera : Camera;
  reflectionCamera : Camera;
  activeCamera : CameraId;
  waterVisible : bool;
  waterPosition : Vector3;
  clipPlane : option Plane;
  uniforms : Uniforms;
  lighting : Lighting
}.

(** [inputMap[k]] in a condition: a key never seen reads [undefined], which
    is falsy. *)
Definition pressed (m : gmap string bool) (k : string) : bool :=
  default false (m !! k).

(** Both key handlers store [evt.sourceEvent.type == "keydown"]. *)
Definition onKey (key type : string) (st : Scene) : Scene :=
  mkScene (boatContainer st) (boatYaw st) (timeOfDay st)
          (<[key := bool_decide (type = "keydown"%string)]> (inputMap st))
          (clouds st) (camera st) (reflectionCamera st) (activeCamera st)
          (waterVisible st) (waterPosition st) (clipPlane st)
          (uniforms st) (lighting st).

(** ** Reflection pipeline *)

Definition waterNormal : Vector3 := mkVector3 0 1 0.

Definition reflectedPos (cam : Camera) : Vector3 :=
  V3.Reflect (camPosition cam) waterNormal.

Definition reflectedTarget (cam : Camera) : Vector3 :=
  let viewDir := V3.subtract (camTarget cam) (camPosition cam) in
  V3.add (reflectedPos cam) (V3.Reflect viewDir waterNormal).

Definition onBeforeRender (st : Scene) : Scene :=
  let clip := mkPlane waterNormal (- V3.Dot waterNormal (waterPosition st)) in
  mkScene (boatContainer st) (boatYaw st) (timeOfDay st) (inputMap st)
          (clouds st) (camera st)
          (mkCamera (reflectedPos (camera st)) (reflectedTarget (camera st)))
          ReflectionCamera false (waterPosition st) (Some clip)
          (uniforms st) (lighting st).

Definition onAfterRender (st : Scene) : Scene :=
  mkScene (boatContainer st) (boatYaw st) (timeOfDay st) (inputMap st)
          (clouds st) (camera st) (reflectionCamera st)
          PrimaryCamera true (waterPosition st) None
          (uniforms st) (lighting st).

(** ** Boat dynamics *)

Definition boatWaveAmplitude : R := 0.25.
Definition pitchDelta : R := 5.
Definition rollDelta : R := 3.

(** The slope the tick calls [pitch]: the wave sampled at [z + pitchDelta]
    and [z - pitchDelta]. *)
Definition pitchSlope (x z now a f : R) : R :=
  let pitchFront := hostWave x (z + pitchDelta) now f * a in
  let pitchBack := hostWave x (z - pitchDelta) now f * a in
  (pitchFront - pitchBack) / (2 * pitchDelta).

(** The slope the tick calls [roll]: the wave sampled at [x + rollDelta]
    and [x - rollDelta]. *)
Definition rollSlope (x z now a f : R) : R :=
  let rollRight := hostWave (x + rollDelta) z now f * a in
  let rollLeft := hostWave (x - rollDelta) z now f * a in
  (rollRight - rollLeft) / (2 * rollDelta).

Definition targetPitch (x z now a f : R) : R := pitchSlope x z now a f * 0.1.
Definition targetRoll (x z now a f : R) : R := rollSlope x z now a f * -0.5.

Definition forward (yaw : R) : Vector3 :=
  mkVector3 (cos yaw) 0 (sin (- yaw)).

(** One coordinate of the boundary check. *)
Definition wrap (c : R) : R :=
  if Rgt_dec c HALF_WORLD_SIZE then - HALF_WORLD_SIZE
  else if Rlt_dec c (- HALF_WORLD_SIZE) then HALF_WORLD_SIZE
  else c.

Definition wrapPosition (p : Vector3) : Vector3 :=
  mkVector3 (wrap (vx p)) (vy p) (wrap (vz p)).

(** The four key tests of the tick. *)
Definition goForward (m : gmap string bool) : bool :=
  pressed m "w" || pressed m "ArrowUp".
Definition goBack (m : gmap string bool) : bool :=
  pressed m "s" || pressed m "ArrowDown".
Definition turnLeft (m : gmap string bool) : bool :=
  pressed m "a" || pressed m "ArrowLeft".
Definition turnRight (m : gmap string bool) : bool :=
  pressed m "d" || pressed m "ArrowRight".

(** Translation by the forward and back keys, in the order of the source. *)
Definition translate (m : gmap string bool) (yaw : R) (p : Vector3) : Vector3 :=
  let p1 := if goForward m then V3.add p (V3.scale (forward yaw) (- moveSpeed))
            else p in
  if goBack m then V3.add p1 (V3.scale (forward yaw) moveSpeed) else p1.

Definition steer (m : gmap string bool) (dt yawTarget : R) : R :=
  let y1 := if turnLeft m then yawTarget - turnSpeed * dt else yawTarget in
  if turnRight m then y1 + turnSpeed * dt else y1.

(** The body of [if (boatContainer)]: the new container and the new
    [boatYaw].  The three samplings read [x] and [z] of the position before
    the translation; the forward vector reads [rotation.y] before it is
    smoothed. *)
Definition boatTick (m : gmap string bool) (now dt a f : R)
    (yawTarget : R) (b : Mesh) : Mesh * R :=
  let x := vx (position b) in
  let z := vz (position b) in
  let verticalOffset := hostWave x z now f * a in
  let targetY := verticalOffset * boatWaveAmplitude + BOAT_BASE_HEIGHT in
  let y' := lerp (vy (position b)) targetY 0.05 in
  let rx' := lerp (vx (rotation b)) (targetPitch x z now a f) 0.05 in
  let rz' := lerp (vz (rotation b)) (targetRoll x z now a f) 0.05 in
  let yaw := vy (rotation b) in
  let p' := translate m yaw (mkVector3 x y' z) in
  let yawTarget' := steer m dt yawTarget in
  let ry' := lerp yaw yawTarget' 0.1 in
  (mkMesh (wrapPosition p') (mkVector3 rx' ry' rz'), yawTarget').

(** ** The tick *)

Definition nightHemiColor : Color3 := mkColor3 0.01 0.02 0.05.
Definition daySunColor : Color3 := mkColor3 1 0.95 0.8.
Definition dayHemiColor : Color3 := mkColor3 0.9 0.9 1.

Definition cloudTick (dt : R) (c : Vector3) : Vector3 :=
  let x' := vx c + dt * 0.01 in
  mkVector3 (if Rgt_dec x' (HALF_WORLD_SIZE * 1.5) then - HALF_WORLD_SIZE * 1.5
             else x')
            (vy c) (vz c).

(** The callback on [onBeforeRenderObservable], given [now]
    ([performance.now() / 1000]) and [dt] ([engine.getDeltaTime()]). *)
Definition tick (now dt : R) (st : Scene) : Scene :=
  let a := newAmplitude now in
  let f := newFrequency now in
  let timeOfDay' := timeOfDay st + dayNightCycleSpeed * dt in
  let k := inclinationFactor timeOfDay' in
  let currentSunColor := lerpColor nightHemiColor daySunColor k in
  let currentHemiColor := lerpColor nightHemiColor dayHemiColor k in
  let light := mkLighting (0.2 + 0.8 * k) currentSunColor currentHemiColor
                          (0.4 + 0.6 * k) (1.0 + 1.0 * k) in
  let unif := mkUniforms now a f 2.0 currentSunColor in
  let clouds' := map (cloudTick dt) (clouds st) in
  match boatContainer st with
  | Some b =>
      let '(b', yaw') := boatTick (inputMap st) now dt a f (boatYaw st) b in
      mkScene (Some b') yaw' timeOfDay' (inputMap st) clouds'
              (mkCamera (camPosition (camera st)) (position b'))
              (reflectionCamera st) (activeCamera st) (waterVisible st)
              (waterPosition st) (clipPlane st) unif light
  | None =>
      mkScene None (boatYaw st) timeOfDay' (inputMap st) clouds'
              (camera st) (reflectionCamera st) (activeCamera st)
              (waterVisible st) (waterPosition st) (clipPlane st) unif light
  end.

(** The loader's success callback when the root mesh and its child are
    found: the container is created at the base height, facing
    [BOAT_ROTATION_Y], and both cameras are aimed at it. *)
Definition onBoatLoaded (st : Scene) : Scene :=
  let b := mkMesh (mkVector3 0 BOAT_BASE_HEIGHT 0)
                  (mkVector3 0 BOAT_ROTATION_Y 0) in
  mkScene (Some b) (vy (rotation b)) (timeOfDay st) (inputMap st) (clouds st)
          (mkCamera (camPosition (camera st)) (position b))
          (mkCamera (camPosition (reflectionCamera st)) (position b))
          (activeCamera st) (waterVisible st) (waterPosition st)
          (clipPlane st) (uniforms st) (lighting st).

(** The scene as [createScene] leaves it, up to what the engine and
    [Math.random] decide: the cloud positions and the cameras' positions. *)
Definition createScene (cloudPositions : list Vector3) (camPos : Vector3) : Scene :=
  mkScene None 0 PI ∅ cloudPositions
          (mkCamera camPos V3.Zero) (mkCamera camPos V3.Zero)
          PrimaryCamera true V3.Zero None
          (mkUniforms 0 4.0 0.05 1.0 (mkColor3 0 0 0))
          (mkLighting 0.0 (mkColor3 1 0.9 0.6)
                      (mkColor3 (165 / 255) (200 / 255) (227 / 255)) 0.8 2).

(** What can happen to a scene. *)
Inductive Event : Type :=
  | Tick (now dt : R)
  | Key (key type : string)
  | BoatLoaded
  | BeforeReflection
  | AfterReflection.

Definition step (e : Event) (st : Scene) : Scene :=
  match e with
  | Tick now dt => tick now dt st
  | Key key type => onKey key type st
  | BoatLoaded => onBoatLoaded st
  | BeforeReflection => onBeforeRender st
  | AfterReflection => onAfterRender st
  end.

Definition run (es : list Event) (st : Scene) : Scene :=
  foldl (fun s e => step e s) st es.

Inductive reachable : Scene -> Prop :=
  | reach_init cs p : reachable (createScene cs p)
  | reach_step e st : reachable st -> reachable (step e st).

(** ** The pitch target in the words of the specification *)

(** The finite-difference slope of the host-side wave height between the
    two points at distance [delta] from [(x, z)] along the direction [d]. *)
Definition slopeAlong (d : Vector3) (delta x z now a f : R) : R :=
  (hostHeight (x + delta * vx d) (z + delta * vz d) now a f
   - hostHeight (x - delta * vx d) (z - delta * vz d) now a f) / (2 * delta).

(** Target pitch with the probes 5 units ahead of and behind the boat along
    its heading, the forward vector of the yaw. *)
Definition headingTargetPitch (x z yaw now a f : R) : R :=
  slopeAlong (forward yaw) 5 x z now a f * 0.1.

(** The same with the heading read as the direction of travel under the
    forward key, the negated forward vector. *)
Definition travelTargetPitch (x z yaw now a f : R) : R :=
  slopeAlong (V3.scale (forward yaw) (-1)) 5 x z now a f * 0.1.

(** ** Several ticks in a row *)

(** One [(now, dt)] pair per frame. *)
Definition ticks (frames : list (R * R)) (st : Scene) : Scene :=
  foldl (fun s fr => tick (fst fr) (snd fr) s) st frames.

Definition elapsed (frames : list (R * R)) : R :=
  foldr (fun fr acc => snd fr + acc) 0 frames.

(** 1 for a test that holds, 0 for one that does not. *)
Definition ind (b : bool) : R := if b then 1 else 0.

(** ** Cloud creation *)

Definition numberOfClouds : nat := 30.

(** The position of one cloud from its three draws of [Math.random], in
    the order of the loop body: x, z, y. *)
Definition cloudSpawn (rx rz ry : R) : Vector3 :=
  mkVector3 ((rx - 0.5) * WORLD_SIZE * 1.5)
            (250 + (ry - 0.5) * 50)
            ((rz - 0.5) * WORLD_SIZE * 1.5).

(** The loop over [i < numberOfClouds]; [draw i] are the draws of round
    [i]. *)
Definition spawnClouds (draw : nat -> R * R * R) : list Vector3 :=
  map (fun i => let '(rx, rz, ry) := draw i in cloudSpawn rx rz ry)
      (seq 0 numberOfClouds).

(** ** The loader callback *)



(** ** The water fragment shader: reflectance and fog *)

(** GLSL's [clamp(x, lo, hi)] is [min(max(x, lo), hi)] and [mix(a, b, t)]
    is [a (1 - t) + b t]. *)
Definition glClamp (x lo hi : R) : R := Rmin (Rmax x lo) hi.

Definition glMix (a b t : R) : R := a * (1 - t) + b * t.

Definition mixColor (a b : Color3) (t : R) : Color3 :=
  mkColor3 (glMix (cr a) (cr b) t) (glMix (cg a) (cg b) t)
           (glMix (cb a) (cb b) t).

Definition fogStart : R := WORLD_SIZE * 0.05.
Definition fogEnd : R := WORLD_SIZE * 0.1.

(** [fog = clamp((end - distance) / (end - start), 0.0, 1.0)]. *)
Definition fogFactor (fstart fend distance : R) : R :=
  glClamp ((fend - distance) / (fend - fstart)) 0 1.

(** [finalColor = mix(vFogColor, finalColor, fog)]. *)
Definition applyFog (fogColor finalColor : Color3)
    (fstart fend distance : R) : Color3 :=
  mixColor fogColor finalColor (fogFactor fstart fend distance).

(** [theta = max(dot(eyeDirection, surfaceNormal), 0.0)] and
    [reflectance = 0.005 + 0.4 * pow(1.0 - theta, 3.0)], from the dot
    product. *)
Definition reflectance (dotEyeNormal : R) : R :=
  let theta := Rmax dotEyeNormal 0 in
  0.005 + 0.4 * ((1 - theta) * (1 - theta) * (1 - theta)).

(** [colorMix = clamp(noise.x * colorBlendIntensity + 0.5, 0.0, 1.0)] and
    [baseWaterColor = mix(waterColor, secondaryWaterColor, colorMix)]. *)
Definition baseWaterColor (waterColor secondaryWaterColor : Color3)
    (noiseX colorBlendIntensity : R) : Color3 :=
  mixColor waterColor secondaryWaterColor
           (glClamp (noiseX * colorBlendIntensity + 0.5) 0 1).

(** The two water colours the tick pushes. *)
Definition blueColor : Color3 := mkColor3 0.0 0.2 0.6.
Definition greenColor : Color3 := mkColor3 0.1 0.7 0.4.

(** * Properties *)

(** ** Helper facts *)

Lemma HALF_WORLD_SIZE_val : HALF_WORLD_SIZE = 20000.
Proof. unfold HALF_WORLD_SIZE, WORLD_SIZE. lra. Qed.

Lemma waveStrength_range now : 0 <= waveStrength now <= 1.
Proof.
  unfold waveStrength.
  pose proof (SIN_bound (now * 0.05)). lra.
Qed.

Lemma cycle_range phase : -1 <= cycle phase <= 1.
Proof. unfold cycle. apply SIN_bound. Qed.

Lemma cycle_2PI : cycle (2 * PI) = 1.
Proof.
  unfold cycle.
  replace (2 * PI + PI / 2) with (PI / 2 + 2 * INR 1 * PI) by (simpl; lra).
  rewrite sin_period. apply sin_PI2.
Qed.

Lemma cycle_2PI3 : cycle (2 * (PI / 3)) = - nightDuration.
Proof.
  unfold cycle, nightDuration.
  replace (2 * (PI / 3) + PI / 2) with (PI / 2 + 2 * (PI / 3)) by lra.
  rewrite <- cos_sin, cos_2PI3. lra.
Qed.

Lemma newAmplitude_range now : 1 <= newAmplitude now <= 7.
Proof.
  pose proof (waveStrength_range now).
  unfold newAmplitude, amplitudeOf, minAmplitude, maxAmplitude. lra.
Qed.

Lemma newFrequency_range now : 0.005 <= newFrequency now <= 0.03.
Proof.
  pose proof (waveStrength_range now).
  unfold newFrequency, frequencyOf, minFrequency, maxFrequency. lra.
Qed.

(** The instant [5 PI / 7] (about 2.24 s): the second factor of the wave
    is then at a quarter period at [z = 0]. *)
Lemma quarter_5PI7 : 5 * PI / 7 * 0.7 = PI / 2.
Proof. lra. Qed.

Lemma sin_5PI7_pos : 0 < sin (5 * PI / 7).
Proof. pose proof PI_RGT_0. apply sin_gt_0; lra. Qed.

Lemma cos_5PI7_neg : cos (5 * PI / 7) < 0.
Proof. pose proof PI_RGT_0. apply cos_lt_0; lra. Qed.

Lemma sin_quarter_ahead x : sin (x + PI / 2) = cos x.
Proof. now rewrite Rplus_comm, <- cos_sin. Qed.

(** The translation never changes the height. *)
Lemma translate_vy m yaw p : vy (translate m yaw p) = vy p.
Proof.
  unfold translate.
  destruct (goForward m), (goBack m); simpl; lra.
Qed.

(** The position a boat has after [boatTick] is the wrapped translation of
    the position with the smoothed height. *)
Lemma boatTick_position m now dt a f yawTarget b :
  position (fst (boatTick m now dt a f yawTarget b)) =
  wrapPosition
    (translate m (vy (rotation b))
       (mkVector3 (vx (position b))
          (lerp (vy (position b))
             (hostWave (vx (position b)) (vz (position b)) now f * a
                * boatWaveAmplitude + BOAT_BASE_HEIGHT) 0.05)
          (vz (position b)))).
Proof. reflexivity. Qed.

(** What a tick does to a scene with a boat. *)
Lemma tick_boat now dt st b :
  boatContainer st = Some b ->
  boatContainer (tick now dt st) =
  Some (fst (boatTick (inputMap st) now dt (newAmplitude now)
               (newFrequency now) (boatYaw st) b)).
Proof.
  intros Hb. unfold tick. rewrite Hb.
  now destruct (boatTick _ _ _ _ _ _ b).
Qed.

Lemma tick_no_boat now dt st :
  boatContainer st = None -> boatContainer (tick now dt st) = None.
Proof. intros Hb. unfold tick. now rewrite Hb. Qed.

(** ** Wave field *)

(** C1: over the reals, the host-side wave height is the reference formula
    [a * sin (x f + t) * sin (z 1.5 f + 0.7 t)]: the expression the tick
    evaluates with the live amplitude and frequency equals it, the height
    the tick steers the boat towards is built from it, and the helper
    [waveHeight] equals it at [a = 4.0] and [f = 0.05]. *)
Theorem wave_height_is_reference :
  (forall x z t a f, hostHeight x z t a f = referenceHeight x z t a f) /\
  (forall m now dt a f yawTarget b,
     vy (position (fst (boatTick m now dt a f yawTarget b))) =
     lerp (vy (position b))
          (referenceHeight (vx (position b)) (vz (position b)) now a f
             * boatWaveAmplitude + BOAT_BASE_HEIGHT) 0.05) /\
  (forall x z t, waveHeight x z t = referenceHeight x z t 4.0 0.05).
Proof.
  assert (Href : forall x z t a f,
             hostWave x z t f * a = referenceHeight x z t a f).
  { intros x z t a f. unfold hostWave, referenceHeight.
    replace (z * f * 1.5 + t * 0.7) with (z * 1.5 * f + 0.7 * t) by ring.
    ring. }
  split; [| split].
  - intros. unfold hostHeight. apply Href.
  - intros. unfold boatTick. cbn [fst position].
    unfold wrapPosition. cbn [vy].
    rewrite translate_vy. cbn [vy].
    now rewrite Href.
  - intros x z t. rewrite <- Href. unfold waveHeight, hostWave. ring.
Qed.

(** What every tick pushes to the water material. *)
Lemma tick_uniforms now dt st :
  uTime (uniforms (tick now dt st)) = now /\
  uWaveAmplitude (uniforms (tick now dt st)) = newAmplitude now /\
  uWaveFrequency (uniforms (tick now dt st)) = newFrequency now.
Proof.
  unfold tick.
  destruct (boatContainer st) as [b|]; [| repeat split].
  destruct (boatTick _ _ _ _ _ _ b). repeat split.
Qed.

(** C2: the tick at [now = 5 PI / 7] with the boat where it was loaded, at
    [(0, 0)].  With the uniforms that tick pushes, the shader leaves the
    water vertex at [(0, 0)] undisplaced, while the height the same tick
    samples for the boat at [(0, 0)] is positive and the boat is lifted
    above its base height.  The two paths disagree. *)
Theorem visual_physical_mismatch :
  let now := 5 * PI / 7 in
  let st := onBoatLoaded (createScene [] V3.Zero) in
  let u := uniforms (tick now 16 st) in
  shaderDisplacement 0 0 (uTime u) (uWaveAmplitude u) (uWaveFrequency u) = 0 /\
  0 < hostHeight 0 0 now (uWaveAmplitude u) (uWaveFrequency u) /\
  exists b', boatContainer (tick now 16 st) = Some b' /\
             BOAT_BASE_HEIGHT < vy (position b').
Proof.
  cbv zeta.
  destruct (tick_uniforms (5 * PI / 7) 16 (onBoatLoaded (createScene [] V3.Zero)))
    as (-> & -> & ->).
  set (a := newAmplitude (5 * PI / 7)).
  set (f := newFrequency (5 * PI / 7)).
  assert (Ha : 1 <= a) by apply newAmplitude_range.
  pose proof sin_5PI7_pos as Hsin.
  assert (Hhost : hostWave 0 0 (5 * PI / 7) f * a = sin (5 * PI / 7) * a).
  { unfold hostWave.
    replace (0 * f + 5 * PI / 7) with (5 * PI / 7) by ring.
    replace (0 * f * 1.5 + 5 * PI / 7 * 0.7) with (PI / 2)
      by (rewrite <- quarter_5PI7; ring).
    rewrite sin_PI2. ring. }
  assert (Hpos : 0 < sin (5 * PI / 7) * a) by nra.
  split; [| split].
  - unfold shaderDisplacement, shaderWave.
    replace (0 * f * 1.5 + 5 * PI / 7 * 0.7) with (PI / 2)
      by (rewrite <- quarter_5PI7; ring).
    rewrite cos_PI2. ring.
  - unfold hostHeight. rewrite Hhost. exact Hpos.
  - eexists. split; [apply tick_boat; reflexivity |].
    rewrite boatTick_position. unfold wrapPosition. cbn [vy].
    rewrite translate_vy. cbn [vy vx vz position onBoatLoaded boatContainer].
    fold a f. rewrite Hhost.
    unfold lerp, boatWaveAmplitude. lra.
Qed.

(** The shader's wave is the host's wave a quarter period ahead in its
    second factor. *)
Lemma shaderWave_quarter_shift x z t f :
  shaderWave x z t f =
  sin (x * f + t) * sin (PI / 2 + (z * f * 1.5 + t * 0.7)).
Proof. unfold shaderWave. now rewrite cos_sin. Qed.

(** ** Wave parameters *)

(** C5: the wave strength lies in [0, 1]; amplitude and frequency are the
    linear blends of their minimum and maximum by the wave strength;
    amplitude is 1 at strength 0 and 7 at strength 1; amplitude stays in
    [1, 7] and frequency in [0.005, 0.03]; both increase with the
    strength. *)
Theorem wave_parameters_blend :
  (forall now, waveStrength now = 0.5 + 0.5 * sin (0.05 * now) /\
               0 <= waveStrength now <= 1) /\
  (forall now,
     newAmplitude now =
       minAmplitude + (maxAmplitude - minAmplitude) * waveStrength now /\
     newFrequency now =
       minFrequency + (maxFrequency - minFrequency) * waveStrength now) /\
  (forall now dt st,
     uWaveAmplitude (uniforms (tick now dt st)) = newAmplitude now /\
     uWaveFrequency (uniforms (tick now dt st)) = newFrequency now) /\
  amplitudeOf 0 = 1.0 /\ amplitudeOf 1 = 7.0 /\
  (forall now, 1.0 <= newAmplitude now <= 7.0) /\
  (forall now, 0.005 <= newFrequency now <= 0.03) /\
  (forall s1 s2, s1 < s2 -> amplitudeOf s1 < amplitudeOf s2) /\
  (forall s1 s2, s1 < s2 -> frequencyOf s1 < frequencyOf s2).
Proof.
  split; [| split; [| split]].
  4: repeat split.
  - intros now. split; [| apply waveStrength_range].
    unfold waveStrength. now rewrite (Rmult_comm now).
  - intros now. split; reflexivity.
  - intros now dt st. unfold tick.
    destruct (boatContainer st) as [b|]; [| split; reflexivity].
    destruct (boatTick _ _ _ _ _ _ b). split; reflexivity.
  - unfold amplitudeOf, minAmplitude, maxAmplitude. lra.
  - unfold amplitudeOf, minAmplitude, maxAmplitude. lra.
  - pose proof (waveStrength_range now).
    unfold newAmplitude, amplitudeOf, minAmplitude, maxAmplitude. lra.
  - pose proof (waveStrength_range now).
    unfold newAmplitude, amplitudeOf, minAmplitude, maxAmplitude. lra.
  - pose proof (waveStrength_range now).
    unfold newFrequency, frequencyOf, minFrequency, maxFrequency. lra.
  - pose proof (waveStrength_range now).
    unfold newFrequency, frequencyOf, minFrequency, maxFrequency. lra.
  - intros s1 s2 Hlt. unfold amplitudeOf, minAmplitude, maxAmplitude. lra.
  - intros s1 s2 Hlt. unfold frequencyOf, minFrequency, maxFrequency. lra.
Qed.

Lemma wave_parameters_blend_witness :
  amplitudeOf 0 < amplitudeOf 1 /\ frequencyOf 0 < frequencyOf 1.
Proof.
  destruct wave_parameters_blend as (_ & _ & _ & _ & _ & _ & _ & Ha & Hf).
  split; [apply Ha | apply Hf]; lra.
Defined.

(** ** Day-night clock *)

Lemma inclinationFactor_unfold phase :
  inclinationFactor phase = Rmax 0 (2 * cycle phase + 1).
Proof.
  unfold inclinationFactor, dayNightRatio, nightDuration.
  f_equal. lra.
Qed.

(** C6: the daylight factor is [max(0, (sin(phase + PI/2) + nightDuration)
    / (1 - nightDuration))] with [nightDuration = 0.5]; the lighting a tick
    derives from it depends on the advanced phase alone; and wherever
    [sin(phase + PI/2) = - nightDuration] the factor is 0. *)
Theorem daylight_factor_of_phase :
  nightDuration = 0.5 /\
  (forall phase,
     inclinationFactor phase =
     Rmax 0 ((sin (phase + PI / 2) + nightDuration) / (1 - nightDuration))) /\
  (forall now1 dt1 st1 now2 dt2 st2,
     timeOfDay (tick now1 dt1 st1) = timeOfDay (tick now2 dt2 st2) ->
     lighting (tick now1 dt1 st1) = lighting (tick now2 dt2 st2)) /\
  (forall phase,
     sin (phase + PI / 2) = - nightDuration -> inclinationFactor phase = 0).
Proof.
  split; [reflexivity |]. split; [| split].
  - intros phase. unfold inclinationFactor, cycle, dayNightRatio.
    do 2 f_equal. lra.
  - intros now1 dt1 st1 now2 dt2 st2.
    assert (Hphase : forall now dt st,
               timeOfDay (tick now dt st)
               = timeOfDay st + dayNightCycleSpeed * dt).
    { intros now dt st. unfold tick.
      destruct (boatContainer st) as [b|]; [| reflexivity].
      now destruct (boatTick _ _ _ _ _ _ b). }
    assert (Hlight : forall now dt st,
               lighting (tick now dt st)
               = let k := inclinationFactor (timeOfDay (tick now dt st)) in
                 mkLighting (0.2 + 0.8 * k)
                            (lerpColor nightHemiColor daySunColor k)
                            (lerpColor nightHemiColor dayHemiColor k)
                            (0.4 + 0.6 * k) (1.0 + 1.0 * k)).
    { intros now dt st. rewrite Hphase. unfold tick.
      destruct (boatContainer st) as [b|]; [| reflexivity].
      now destruct (boatTick _ _ _ _ _ _ b). }
    intros Heq. rewrite !Hlight, Heq. reflexivity.
  - intros phase Hsin.
    rewrite inclinationFactor_unfold. unfold cycle. rewrite Hsin.
    unfold nightDuration. apply Rmax_left. lra.
Qed.

Lemma daylight_factor_of_phase_witness :
  sin (2 * (PI / 3) + PI / 2) = - nightDuration /\
  inclinationFactor (2 * (PI / 3)) = 0.
Proof.
  split.
  - exact cycle_2PI3.
  - destruct daylight_factor_of_phase as (_ & _ & _ & Hzero).
    apply Hzero. exact cycle_2PI3.
Defined.

Lemma inclinationFactor_2PI : inclinationFactor (2 * PI) = 3.
Proof.
  rewrite inclinationFactor_unfold, cycle_2PI.
  rewrite Rmax_right; lra.
Qed.

(** C7, as stated, fails: after one full turn of the phase the daylight
    factor is 3, not within [0, 1]. *)
Lemma daylight_factor_exceeds_one :
  inclinationFactor (2 * PI) = 3 /\ ~ (0 <= inclinationFactor (2 * PI) <= 1).
Proof.
  split; [exact inclinationFactor_2PI |].
  rewrite inclinationFactor_2PI. lra.
Qed.

(** C7, amended: for every phase the daylight factor lies in [0, 3]; the
    lower clamp is the explicit [max] with 0 and the upper bound 3 is
    reached where the cycle is 1. *)
Theorem daylight_factor_range :
  (forall phase, 0 <= inclinationFactor phase <= 3) /\
  inclinationFactor (2 * PI) = 3.
Proof.
  split.
  - intros phase. rewrite inclinationFactor_unfold.
    pose proof (cycle_range phase) as Hc.
    split; [apply Rmax_l |].
    apply Rmax_lub; lra.
  - exact inclinationFactor_2PI.
Qed.

(** ** Boundary wrap *)

Lemma wrap_above c : c > HALF_WORLD_SIZE -> wrap c = - HALF_WORLD_SIZE.
Proof.
  intros Hc. unfold wrap.
  destruct (Rgt_dec c HALF_WORLD_SIZE); [reflexivity | contradiction].
Qed.

Lemma wrap_below c : c < - HALF_WORLD_SIZE -> wrap c = HALF_WORLD_SIZE.
Proof.
  intros Hc. unfold wrap.
  pose proof HALF_WORLD_SIZE_val as Hh.
  destruct (Rgt_dec c HALF_WORLD_SIZE); [lra |].
  destruct (Rlt_dec c (- HALF_WORLD_SIZE)); [reflexivity | contradiction].
Qed.

Lemma wrap_inside c :
  - HALF_WORLD_SIZE <= c <= HALF_WORLD_SIZE -> wrap c = c.
Proof.
  intros Hc. unfold wrap.
  destruct (Rgt_dec c HALF_WORLD_SIZE); [lra |].
  destruct (Rlt_dec c (- HALF_WORLD_SIZE)); [lra | reflexivity].
Qed.

Lemma wrap_bounded c : Rabs (wrap c) <= HALF_WORLD_SIZE.
Proof.
  unfold wrap. pose proof HALF_WORLD_SIZE_val as Hh.
  destruct (Rgt_dec c HALF_WORLD_SIZE).
  - rewrite Rabs_Ropp, Rabs_right; lra.
  - destruct (Rlt_dec c (- HALF_WORLD_SIZE)).
    + rewrite Rabs_right; lra.
    + apply Rabs_le. lra.
Qed.

(** C4: in the boundary check, a coordinate [x] above [halfWorldSize]
    (20000) becomes [- halfWorldSize], one below [- halfWorldSize] becomes
    [halfWorldSize], and the same holds for [z], each coordinate on its
    own. *)
Theorem boundary_wrap :
  HALF_WORLD_SIZE = 20000 /\
  forall p,
    (vx p > HALF_WORLD_SIZE -> vx (wrapPosition p) = - HALF_WORLD_SIZE) /\
    (vx p < - HALF_WORLD_SIZE -> vx (wrapPosition p) = HALF_WORLD_SIZE) /\
    (vz p > HALF_WORLD_SIZE -> vz (wrapPosition p) = - HALF_WORLD_SIZE) /\
    (vz p < - HALF_WORLD_SIZE -> vz (wrapPosition p) = HALF_WORLD_SIZE) /\
    vx (wrapPosition p) = wrap (vx p) /\
    vz (wrapPosition p) = wrap (vz p).
Proof.
  split; [exact HALF_WORLD_SIZE_val |].
  intros p. unfold wrapPosition. cbn [vx vz].
  repeat split; auto using wrap_above, wrap_below.
Qed.

Lemma boundary_wrap_witness :
  let p := mkVector3 20000.5 16.7 (-20001) in
  vx p > HALF_WORLD_SIZE /\ vz p < - HALF_WORLD_SIZE /\
  vx (wrapPosition p) = - HALF_WORLD_SIZE /\
  vz (wrapPosition p) = HALF_WORLD_SIZE.
Proof.
  cbv zeta.
  assert (Hx : vx (mkVector3 20000.5 16.7 (-20001)) > HALF_WORLD_SIZE)
    by (rewrite HALF_WORLD_SIZE_val; cbn [vx]; lra).
  assert (Hz : vz (mkVector3 20000.5 16.7 (-20001)) < - HALF_WORLD_SIZE)
    by (rewrite HALF_WORLD_SIZE_val; cbn [vz]; lra).
  destruct boundary_wrap as [_ Hwrap].
  destruct (Hwrap (mkVector3 20000.5 16.7 (-20001)))
    as (Hxa & _ & _ & Hzb & _).
  repeat split; auto.
Defined.

(** The bound the wrap keeps. *)
Definition inWorld (b : Mesh) : Prop :=
  Rabs (vx (position b)) <= HALF_WORLD_SIZE /\
  Rabs (vz (position b)) <= HALF_WORLD_SIZE.

Lemma boatTick_inWorld m now dt a f yawTarget b :
  inWorld (fst (boatTick m now dt a f yawTarget b)).
Proof.
  unfold inWorld. rewrite boatTick_position.
  unfold wrapPosition. cbn [vx vz].
  split; apply wrap_bounded.
Qed.

Lemma step_inWorld e st :
  (forall b, boatContainer st = Some b -> inWorld b) ->
  forall b', boatContainer (step e st) = Some b' -> inWorld b'.
Proof.
  intros IH b' Hb'. destruct e as [now dt | key type | | |]; cbn in Hb'.
  - destruct (boatContainer st) as [b|] eqn:Hb.
    + rewrite (tick_boat now dt st b Hb) in Hb'.
      injection Hb' as <-. apply boatTick_inWorld.
    + rewrite (tick_no_boat now dt st Hb) in Hb'. discriminate.
  - now apply IH.
  - injection Hb' as <-. unfold inWorld. cbn [position vx vz].
    rewrite Rabs_R0, HALF_WORLD_SIZE_val. lra.
  - now apply IH.
  - now apply IH.
Qed.

(** C10: after every tick with a boat, [|position.x| <= halfWorldSize] and
    [|position.z| <= halfWorldSize], whatever the position was before the
    tick; hence the bound holds for the boat of every reachable scene. *)
Theorem boat_stays_in_world :
  (forall now dt st b',
     boatContainer (tick now dt st) = Some b' -> inWorld b') /\
  (forall st, reachable st ->
     forall b, boatContainer st = Some b -> inWorld b).
Proof.
  split.
  - intros now dt st b' Hb'.
    destruct (boatContainer st) as [b|] eqn:Hb.
    + rewrite (tick_boat now dt st b Hb) in Hb'.
      injection Hb' as <-. apply boatTick_inWorld.
    + rewrite (tick_no_boat now dt st Hb) in Hb'. discriminate.
  - intros st Hreach. induction Hreach as [cs p | e st Hreach IH].
    + intros b Hb. discriminate.
    + now apply step_inWorld.
Qed.

Lemma boat_stays_in_world_witness :
  let st := onBoatLoaded (createScene [] V3.Zero) in
  inWorld (fst (boatTick (inputMap st) 0 16 (newAmplitude 0) (newFrequency 0)
                  (boatYaw st)
                  (mkMesh (mkVector3 0 BOAT_BASE_HEIGHT 0)
                          (mkVector3 0 BOAT_ROTATION_Y 0)))).
Proof.
  cbv zeta.
  apply (proj1 boat_stays_in_world 0 16 (onBoatLoaded (createScene [] V3.Zero))).
  apply tick_boat. reflexivity.
Defined.

(** ** Reflection pipeline *)

Lemma Reflect_waterNormal v :
  V3.Reflect v waterNormal = mkVector3 (vx v) (- vy v) (vz v).
Proof.
  unfold V3.Reflect, V3.subtract, V3.scale, V3.Dot, waterNormal.
  cbn [vx vy vz]. f_equal; ring.
Qed.

(** C9: the pre-pass sets the reflection camera's position to
    [reflect(position, (0,1,0))], with [reflect(v, n) = v - 2 (v . n) n]
    (which for this normal negates the height),
    and its target to that position plus [reflect(target - position,
    (0,1,0))]; both depend on the primary camera alone, so a later pre-pass
    that finds the primary camera unchanged writes the same position and
    target again, whatever happened in between. *)
Theorem reflection_camera_mirrors_primary :
  (forall v n,
     V3.Reflect v n = V3.subtract v (V3.scale n (2 * V3.Dot v n))) /\
  (forall v, V3.Reflect v (mkVector3 0 1 0) = mkVector3 (vx v) (- vy v) (vz v)) /\
  (forall st,
     let up := mkVector3 0 1 0 in
     let pos := camPosition (camera st) in
     let target := camTarget (camera st) in
     camPosition (reflectionCamera (onBeforeRender st)) = V3.Reflect pos up /\
     camTarget (reflectionCamera (onBeforeRender st)) =
       V3.add (V3.Reflect pos up) (V3.Reflect (V3.subtract target pos) up)) /\
  (forall st1 st2,
     camera st1 = camera st2 ->
     reflectionCamera (onBeforeRender st1)
     = reflectionCamera (onBeforeRender st2)) /\
  (forall es st,
     camera (run es (onBeforeRender st)) = camera st ->
     reflectionCamera (onBeforeRender (run es (onBeforeRender st)))
     = reflectionCamera (onBeforeRender st)).
Proof.
  assert (Hfun : forall st1 st2,
             camera st1 = camera st2 ->
             reflectionCamera (onBeforeRender st1)
             = reflectionCamera (onBeforeRender st2)).
  { intros st1 st2 Hcam. unfold onBeforeRender.
    cbn [reflectionCamera]. now rewrite Hcam. }
  split; [reflexivity |]. split; [exact Reflect_waterNormal |].
  split; [| split].
  - intros st. cbv zeta. split; reflexivity.
  - exact Hfun.
  - intros es st Hcam. now apply Hfun.
Qed.

Lemma reflection_camera_mirrors_primary_witness :
  let st := createScene [] (mkVector3 1 2 3) in
  let es := [AfterReflection; Key "w" "keydown"; Tick 0 16] in
  reflectionCamera (onBeforeRender (run es (onBeforeRender st)))
  = reflectionCamera (onBeforeRender st).
Proof.
  cbv zeta.
  destruct reflection_camera_mirrors_primary as (_ & _ & _ & _ & Hsame).
  apply Hsame. reflexivity.
Defined.

(** ** Boat translation *)

Lemma goForward_true m :
  pressed m "w" = true \/ pressed m "ArrowUp" = true -> goForward m = true.
Proof.
  unfold goForward. intros [-> | ->]; [reflexivity | apply orb_true_r].
Qed.

Lemma goBack_false m :
  pressed m "s" = false -> pressed m "ArrowDown" = false -> goBack m = false.
Proof. unfold goBack. now intros -> ->. Qed.

(** The position after a tick's boat update when only the forward test
    holds and no wrap triggers. *)
Lemma boatTick_forward_only m now dt a f yawTarget b :
  goForward m = true -> goBack m = false ->
  let yaw := vy (rotation b) in
  let x := vx (position b) in
  let z := vz (position b) in
  - HALF_WORLD_SIZE <= x - moveSpeed * cos yaw <= HALF_WORLD_SIZE ->
  - HALF_WORLD_SIZE <= z - moveSpeed * sin (- yaw) <= HALF_WORLD_SIZE ->
  position (fst (boatTick m now dt a f yawTarget b)) =
  mkVector3 (x - moveSpeed * cos yaw)
            (lerp (vy (position b))
               (hostWave x z now f * a * boatWaveAmplitude + BOAT_BASE_HEIGHT)
               0.05)
            (z - moveSpeed * sin (- yaw)).
Proof.
  intros Hfwd Hback yaw x z Hx Hz.
  rewrite boatTick_position.
  unfold translate. rewrite Hfwd, Hback.
  unfold wrapPosition, V3.add, V3.scale, forward. cbn [vx vy vz].
  fold yaw x z.
  replace (x + cos yaw * - moveSpeed) with (x - moveSpeed * cos yaw) by ring.
  replace (z + sin (- yaw) * - moveSpeed)
    with (z - moveSpeed * sin (- yaw)) by ring.
  rewrite (wrap_inside _ Hx), (wrap_inside _ Hz).
  f_equal. ring.
Qed.

(** C8: in a tick where "w" or "ArrowUp" is pressed, "s" and "ArrowDown"
    are not, and the moved position stays inside the world, the boat's
    [(x, z)] moves by [- moveSpeed * (cos yaw, sin (- yaw))], a step of
    length [moveSpeed = 0.5]; the new position is the same for every
    [deltaTime]. *)
Theorem forward_key_step :
  forall now dt st b,
    boatContainer st = Some b ->
    pressed (inputMap st) "w" = true \/ pressed (inputMap st) "ArrowUp" = true ->
    pressed (inputMap st) "s" = false ->
    pressed (inputMap st) "ArrowDown" = false ->
    let yaw := vy (rotation b) in
    let x := vx (position b) in
    let z := vz (position b) in
    - HALF_WORLD_SIZE <= x - moveSpeed * vx (forward yaw) <= HALF_WORLD_SIZE ->
    - HALF_WORLD_SIZE <= z - moveSpeed * vz (forward yaw) <= HALF_WORLD_SIZE ->
    exists b',
      boatContainer (tick now dt st) = Some b' /\
      vx (position b') = x - moveSpeed * cos yaw /\
      vz (position b') = z - moveSpeed * sin (- yaw) /\
      (vx (position b') - x) * (vx (position b') - x)
      + (vz (position b') - z) * (vz (position b') - z)
      = moveSpeed * moveSpeed /\
      moveSpeed = 0.5 /\
      forall dt2, exists b2,
        boatContainer (tick now dt2 st) = Some b2 /\
        position b2 = position b'.
Proof.
  intros now dt st b Hb Hfwd Hs Hdown yaw x z Hx Hz.
  apply goForward_true in Hfwd.
  pose proof (goBack_false _ Hs Hdown) as Hback.
  cbn [forward vx vz] in Hx, Hz.
  assert (Hpos : forall d,
             position (fst (boatTick (inputMap st) now d (newAmplitude now)
                              (newFrequency now) (boatYaw st) b)) =
             mkVector3 (x - moveSpeed * cos yaw)
               (lerp (vy (position b))
                  (hostWave x z now (newFrequency now) * newAmplitude now
                     * boatWaveAmplitude + BOAT_BASE_HEIGHT) 0.05)
               (z - moveSpeed * sin (- yaw))).
  { intros d. now apply boatTick_forward_only. }
  eexists. split; [apply (tick_boat now dt st b Hb) |].
  rewrite Hpos. cbn [vx vz].
  split; [reflexivity |]. split; [reflexivity |].
  split; [| split; [reflexivity |]].
  - rewrite sin_neg. pose proof (sin2_cos2 yaw) as Hunit.
    unfold Rsqr in Hunit. nra.
  - intros dt2. eexists. split; [apply (tick_boat now dt2 st b Hb) |].
    now rewrite Hpos.
Qed.

Lemma forward_key_step_witness :
  let st := onKey "w" "keydown" (onBoatLoaded (createScene [] V3.Zero)) in
  exists b',
    boatContainer (tick 0 16 st) = Some b' /\
    vx (position b') = 0 - moveSpeed * cos PI /\
    vz (position b') = 0 - moveSpeed * sin (- PI).
Proof.
  cbv zeta.
  pose proof HALF_WORLD_SIZE_val as Hh.
  destruct (forward_key_step 0 16
              (onKey "w" "keydown" (onBoatLoaded (createScene [] V3.Zero)))
              (mkMesh (mkVector3 0 BOAT_BASE_HEIGHT 0)
                      (mkVector3 0 BOAT_ROTATION_Y 0)))
    as (b' & Hb' & Hx' & Hz' & _).
  - reflexivity.
  - left. reflexivity.
  - reflexivity.
  - reflexivity.
  - cbn [rotation position forward vx vy vz].
    unfold BOAT_ROTATION_Y, moveSpeed. rewrite cos_PI. lra.
  - cbn [rotation position forward vx vy vz].
    unfold BOAT_ROTATION_Y, moveSpeed. rewrite sin_neg, sin_PI. lra.
  - exists b'. auto.
Defined.

(** ** Pitch and roll *)

Lemma boatTick_rotation m now dt a f yawTarget b :
  let x := vx (position b) in
  let z := vz (position b) in
  vx (rotation (fst (boatTick m now dt a f yawTarget b)))
  = lerp (vx (rotation b)) (targetPitch x z now a f) 0.05 /\
  vz (rotation (fst (boatTick m now dt a f yawTarget b)))
  = lerp (vz (rotation b)) (targetRoll x z now a f) 0.05.
Proof. split; reflexivity. Qed.

(** At [now = 5 PI / 7] the wave has no slope along z through [(0, 0)]:
    the target pitch of the code is 0 there. *)
Lemma targetPitch_sample a f : targetPitch 0 0 (5 * PI / 7) a f = 0.
Proof.
  unfold targetPitch, pitchSlope, hostWave, pitchDelta.
  rewrite quarter_5PI7, !sin_quarter_ahead.
  replace ((0 - 5) * f * 1.5) with (- ((0 + 5) * f * 1.5)) by ring.
  rewrite cos_neg. lra.
Qed.

(** The slope along the x axis through the same point at the same time. *)
Lemma slopeAlong_x_sample (d : Vector3) a f :
  vz d = 0 ->
  slopeAlong d 5 0 0 (5 * PI / 7) a f
  = a * cos (5 * PI / 7) * sin (5 * vx d * f) / 5.
Proof.
  intros Hz. unfold slopeAlong, hostHeight, hostWave. rewrite Hz.
  replace ((0 + 5 * 0) * f * 1.5 + 5 * PI / 7 * 0.7) with (PI / 2)
    by (rewrite <- quarter_5PI7; ring).
  replace ((0 - 5 * 0) * f * 1.5 + 5 * PI / 7 * 0.7) with (PI / 2)
    by (rewrite <- quarter_5PI7; ring).
  replace ((0 + 5 * vx d) * f + 5 * PI / 7)
    with (5 * PI / 7 + 5 * vx d * f) by ring.
  replace ((0 - 5 * vx d) * f + 5 * PI / 7)
    with (5 * PI / 7 - 5 * vx d * f) by ring.
  rewrite sin_PI2, sin_plus, sin_minus. field.
Qed.

(** With yaw [PI] the forward vector is [(-1, 0, 0)]; probes along it, in
    either sense, see a slope that is not 0. *)
Lemma headingTargetPitch_sample a f :
  1 <= a -> 0.005 <= f <= 0.03 ->
  0 < headingTargetPitch 0 0 PI (5 * PI / 7) a f /\
  travelTargetPitch 0 0 PI (5 * PI / 7) a f < 0.
Proof.
  intros Ha Hf.
  assert (Hs : 0 < sin (5 * f))
    by (pose proof PI2_1; apply sin_gt_0; lra).
  pose proof cos_5PI7_neg as Hc.
  assert (Hac : 0 < a * - cos (5 * PI / 7))
    by (apply Rmult_lt_0_compat; lra).
  pose proof (Rmult_lt_0_compat _ _ Hac Hs) as Hprod.
  unfold headingTargetPitch, travelTargetPitch.
  rewrite !slopeAlong_x_sample
    by (unfold forward, V3.scale; cbn [vx vy vz]; rewrite sin_neg, sin_PI; ring).
  unfold forward, V3.scale. cbn [vx vy vz]. rewrite cos_PI.
  replace (5 * -1 * f) with (- (5 * f)) by ring.
  replace (5 * (-1 * -1) * f) with (5 * f) by ring.
  rewrite sin_neg. split; lra.
Qed.

(** C3, as stated, fails: in the tick at [now = 5 PI / 7] the boat sits
    where it was loaded, at [(0, 0)] with yaw [PI], heading along the x
    axis.  The slope between the probes 5 units along the heading (in
    either sense) is not 0, so a pitch smoothed towards it would leave 0;
    the tick probes along z, finds no slope, and keeps the pitch at 0. *)
Lemma pitch_not_along_heading :
  let now := 5 * PI / 7 in
  let st := onBoatLoaded (createScene [] V3.Zero) in
  let a := newAmplitude now in
  let f := newFrequency now in
  exists b b',
    boatContainer st = Some b /\
    boatContainer (tick now 16 st) = Some b' /\
    vx (rotation b') <>
      lerp (vx (rotation b))
           (headingTargetPitch (vx (position b)) (vz (position b))
              (vy (rotation b)) now a f) 0.05 /\
    vx (rotation b') <>
      lerp (vx (rotation b))
           (travelTargetPitch (vx (position b)) (vz (position b))
              (vy (rotation b)) now a f) 0.05.
Proof.
  cbv zeta.
  eexists. eexists.
  split; [reflexivity |]. split; [apply tick_boat; reflexivity |].
  destruct (boatTick_rotation (inputMap (onBoatLoaded (createScene [] V3.Zero)))
              (5 * PI / 7) 16 (newAmplitude (5 * PI / 7))
              (newFrequency (5 * PI / 7))
              (boatYaw (onBoatLoaded (createScene [] V3.Zero)))
              (mkMesh (mkVector3 0 BOAT_BASE_HEIGHT 0)
                      (mkVector3 0 BOAT_ROTATION_Y 0))) as [-> _].
  cbn [position rotation vx vy vz]. unfold BOAT_ROTATION_Y.
  rewrite targetPitch_sample.
  destruct (headingTargetPitch_sample (newAmplitude (5 * PI / 7))
              (newFrequency (5 * PI / 7))) as [Hhead Htravel].
  { apply newAmplitude_range. }
  { apply newFrequency_range. }
  unfold lerp. split; lra.
Qed.

(** C3, amended: on each tick with the boat present, the target pitch is
    0.1 times the finite-difference slope of the wave height between the
    probes at [z + 5] and [z - 5], the target roll is -0.5 times the slope
    between the probes at [x + 3] and [x - 3], both along the world axes
    whatever the heading, and pitch and roll move towards their targets by
    [lerp] with factor 0.05. *)
Theorem pitch_roll_world_axes :
  forall now dt st b,
    boatContainer st = Some b ->
    let a := newAmplitude now in
    let f := newFrequency now in
    let x := vx (position b) in
    let z := vz (position b) in
    exists b',
      boatContainer (tick now dt st) = Some b' /\
      vx (rotation b') =
        lerp (vx (rotation b))
             (0.1 * ((hostHeight x (z + 5) now a f
                      - hostHeight x (z - 5) now a f) / (2 * 5))) 0.05 /\
      vz (rotation b') =
        lerp (vz (rotation b))
             (-0.5 * ((hostHeight (x + 3) z now a f
                       - hostHeight (x - 3) z now a f) / (2 * 3))) 0.05.
Proof.
  intros now dt st b Hb a f x z.
  eexists. split; [apply (tick_boat now dt st b Hb) |].
  destruct (boatTick_rotation (inputMap st) now dt a f (boatYaw st) b)
    as [Hpitch Hroll].
  fold a f. rewrite Hpitch, Hroll. fold x z.
  unfold targetPitch, targetRoll, pitchSlope, rollSlope, hostHeight,
    pitchDelta, rollDelta.
  split; f_equal; ring.
Qed.

Lemma pitch_roll_world_axes_witness :
  let st := onBoatLoaded (createScene [] V3.Zero) in
  exists b',
    boatContainer (tick 0 16 st) = Some b' /\
    vx (rotation b') =
      lerp 0 (0.1 * ((hostHeight 0 (0 + 5) 0 (newAmplitude 0) (newFrequency 0)
                      - hostHeight 0 (0 - 5) 0 (newAmplitude 0) (newFrequency 0))
                     / (2 * 5))) 0.05.
Proof.
  cbv zeta.
  destruct (pitch_roll_world_axes 0 16 (onBoatLoaded (createScene [] V3.Zero))
              (mkMesh (mkVector3 0 BOAT_BASE_HEIGHT 0)
                      (mkVector3 0 BOAT_ROTATION_Y 0)) eq_refl)
    as (b' & Hb' & Hpitch & _).
  exists b'. split; [exact Hb' | exact Hpitch].
Defined.

(** * Further properties of the scene script *)

(** ** What a tick leaves alone *)

Lemma tick_frame now dt st :
  inputMap (tick now dt st) = inputMap st /\
  timeOfDay (tick now dt st) = timeOfDay st + dayNightCycleSpeed * dt /\
  clouds (tick now dt st) = map (cloudTick dt) (clouds st) /\
  reflectionCamera (tick now dt st) = reflectionCamera st /\
  activeCamera (tick now dt st) = activeCamera st /\
  waterVisible (tick now dt st) = waterVisible st /\
  waterPosition (tick now dt st) = waterPosition st /\
  clipPlane (tick now dt st) = clipPlane st.
Proof.
  unfold tick.
  destruct (boatContainer st) as [b|]; [| repeat split].
  destruct (boatTick _ _ _ _ _ _ b). repeat split.
Qed.

Lemma tick_boatYaw now dt st b :
  boatContainer st = Some b ->
  boatYaw (tick now dt st) = steer (inputMap st) dt (boatYaw st).
Proof. intros Hb. unfold tick. now rewrite Hb. Qed.


Lemma run_cons e es st : run (e :: es) st = run es (step e st).
Proof. reflexivity. Qed.

Lemma run_snoc es e st : run (es ++ [e]) st = step e (run es st).
Proof. unfold run. now rewrite foldl_app. Qed.

Lemma ticks_snoc frames fr st :
  ticks (frames ++ [fr]) st = tick (fst fr) (snd fr) (ticks frames st).
Proof. unfold ticks. now rewrite foldl_app. Qed.

Lemma elapsed_snoc frames fr :
  elapsed (frames ++ [fr]) = elapsed frames + snd fr.
Proof.
  induction frames as [| fr0 frames IH]; cbn [elapsed foldr app].
  - lra.
  - fold (elapsed (frames ++ [fr])). fold (elapsed frames). rewrite IH. lra.
Qed.

(** ** Smoothing *)

Lemma lerp_error a b t : lerp a b t - b = (1 - t) * (a - b).
Proof. unfold lerp. ring. Qed.

Lemma lerp_in_interval lo hi a b t :
  0 <= t <= 1 -> lo <= a <= hi -> lo <= b <= hi -> lo <= lerp a b t <= hi.
Proof. intros Ht Ha Hb. unfold lerp. split; nra. Qed.

(** ** Bounds on the wave *)

Lemma hostWave_bound x z now f : -1 <= hostWave x z now f <= 1.
Proof.
  unfold hostWave.
  pose proof (SIN_bound (x * f + now)).
  pose proof (SIN_bound (z * f * 1.5 + now * 0.7)).
  split; nra.
Qed.

Lemma shaderWave_bound x z now f : -1 <= shaderWave x z now f <= 1.
Proof.
  unfold shaderWave.
  pose proof (SIN_bound (x * f + now)).
  pose proof (COS_bound (z * f * 1.5 + now * 0.7)).
  split; nra.
Qed.

Lemma scaled_wave_bound w a : -1 <= w <= 1 -> 1 <= a <= 7 -> -7 <= w * a <= 7.
Proof. intros Hw Ha. split; nra. Qed.

(** X1: with the amplitude of any tick, the height the host samples and the
    displacement the shader applies both stay within the maximum amplitude
    7 of the rest level, at every point and time. *)
Theorem wave_within_max_amplitude :
  forall x z now t,
    Rabs (hostHeight x z t (newAmplitude now) (newFrequency now))
      <= maxAmplitude /\
    Rabs (shaderDisplacement x z t (newAmplitude now) (newFrequency now))
      <= maxAmplitude.
Proof.
  intros x z now t. unfold maxAmplitude, hostHeight, shaderDisplacement.
  pose proof (newAmplitude_range now) as Ha.
  split; apply Rabs_le.
  - pose proof (scaled_wave_bound _ _ (hostWave_bound x z t (newFrequency now)) Ha).
    lra.
  - pose proof (scaled_wave_bound _ _ (shaderWave_bound x z t (newFrequency now)) Ha).
    lra.
Qed.

(** X2: where the frequency is not 0, the shader's displacement at
    [(x, z)] is the host's height at [(x, z + PI / (3 f))]: the water drawn
    is the sampled wave field shifted along z by a quarter of its z
    period. *)
Theorem shader_is_host_shifted :
  forall x z t a f,
    f <> 0 ->
    shaderDisplacement x z t a f = hostHeight x (z + PI / (3 * f)) t a f.
Proof.
  intros x z t a f Hf.
  unfold shaderDisplacement, hostHeight, shaderWave, hostWave.
  replace 1.5 with (3 / 2) by lra.
  replace ((z + PI / (3 * f)) * f * (3 / 2) + t * 0.7)
    with (z * f * (3 / 2) + t * 0.7 + PI / 2)
    by (replace ((z + PI / (3 * f)) * f * (3 / 2))
          with (z * f * (3 / 2) + PI / 2) by (field; exact Hf);
        ring).
  now rewrite sin_quarter_ahead.
Qed.

Lemma shader_is_host_shifted_witness :
  shaderDisplacement 0 0 0 4 0.05 = hostHeight 0 (0 + PI / (3 * 0.05)) 0 4 0.05.
Proof. apply shader_is_host_shifted. lra. Defined.

(** ** The envelope of the boat's pose *)

Definition poseEnvelope (b : Mesh) : Prop :=
  BOAT_BASE_HEIGHT - 1.75 <= vy (position b) <= BOAT_BASE_HEIGHT + 1.75 /\
  Rabs (vx (rotation b)) <= 0.14 /\
  Rabs (vz (rotation b)) <= 7 / 6.

Lemma Rabs_le_elim a b : Rabs a <= b -> - b <= a <= b.
Proof. unfold Rabs. destruct (Rcase_abs a); lra. Qed.

Lemma targetPitch_bound x z now a f :
  1 <= a <= 7 -> - (0.14) <= targetPitch x z now a f <= 0.14.
Proof.
  intros Ha. unfold targetPitch, pitchSlope, pitchDelta.
  pose proof (scaled_wave_bound _ _ (hostWave_bound x (z + 5) now f) Ha).
  pose proof (scaled_wave_bound _ _ (hostWave_bound x (z - 5) now f) Ha).
  split; lra.
Qed.

Lemma targetRoll_bound x z now a f :
  1 <= a <= 7 -> - (7 / 6) <= targetRoll x z now a f <= 7 / 6.
Proof.
  intros Ha. unfold targetRoll, rollSlope, rollDelta.
  pose proof (scaled_wave_bound _ _ (hostWave_bound (x + 3) z now f) Ha).
  pose proof (scaled_wave_bound _ _ (hostWave_bound (x - 3) z now f) Ha).
  split; lra.
Qed.

Lemma boatTick_poseEnvelope m now dt yawTarget b :
  poseEnvelope b ->
  poseEnvelope (fst (boatTick m now dt (newAmplitude now) (newFrequency now)
                       yawTarget b)).
Proof.
  intros (Hy & Hpitch & Hroll).
  pose proof (newAmplitude_range now) as Ha.
  unfold poseEnvelope. split; [| split].
  - rewrite boatTick_position. unfold wrapPosition. cbn [vy].
    rewrite translate_vy. cbn [vy].
    apply lerp_in_interval; [lra | exact Hy |].
    pose proof (scaled_wave_bound _ _
                  (hostWave_bound (vx (position b)) (vz (position b)) now
                     (newFrequency now)) Ha).
    unfold boatWaveAmplitude. lra.
  - destruct (boatTick_rotation m now dt (newAmplitude now) (newFrequency now)
                yawTarget b) as [-> _].
    apply Rabs_le. apply Rabs_le_elim in Hpitch.
    apply lerp_in_interval; [lra | lra |].
    now apply targetPitch_bound.
  - destruct (boatTick_rotation m now dt (newAmplitude now) (newFrequency now)
                yawTarget b) as [_ ->].
    apply Rabs_le. apply Rabs_le_elim in Hroll.
    apply lerp_in_interval; [lra | lra |].
    now apply targetRoll_bound.
Qed.

(** X3: in every reachable scene the boat's height stays within 1.75 of the
    base height 16.7, its pitch within 0.14 rad and its roll within 7/6
    rad, whatever keys were pressed and whatever times the frames had. *)
Theorem boat_pose_envelope :
  forall st, reachable st ->
  forall b, boatContainer st = Some b ->
    BOAT_BASE_HEIGHT - 1.75 <= vy (position b) <= BOAT_BASE_HEIGHT + 1.75 /\
    Rabs (vx (rotation b)) <= 0.14 /\
    Rabs (vz (rotation b)) <= 7 / 6.
Proof.
  intros st Hreach. fold (forall b, boatContainer st = Some b -> poseEnvelope b).
  induction Hreach as [cs p | e st Hreach IH]; [discriminate |].
  intros b' Hb'. destruct e as [now dt | key type | | |]; cbn in Hb'.
  - destruct (boatContainer st) as [b|] eqn:Hb.
    + rewrite (tick_boat now dt st b Hb) in Hb'. injection Hb' as <-.
      apply boatTick_poseEnvelope. now apply IH.
    + rewrite (tick_no_boat now dt st Hb) in Hb'. discriminate.
  - now apply IH.
  - injection Hb' as <-. unfold poseEnvelope. cbn [position rotation vx vy vz].
    rewrite Rabs_R0. repeat split; lra.
  - now apply IH.
  - now apply IH.
Qed.

Lemma boat_pose_envelope_witness :
  exists b,
    boatContainer (tick 0 16 (onBoatLoaded (createScene [] V3.Zero))) = Some b /\
    BOAT_BASE_HEIGHT - 1.75 <= vy (position b) <= BOAT_BASE_HEIGHT + 1.75.
Proof.
  eexists. split; [apply tick_boat; reflexivity |].
  eapply (boat_pose_envelope
            (step (Tick 0 16) (step BoatLoaded (createScene [] V3.Zero)))).
  - do 2 apply reach_step. apply reach_init.
  - apply tick_boat. reflexivity.
Defined.

(** ** Steering and translation *)

(** X4: in a tick with the boat, the yaw target changes by [turnSpeed * dt]
    to the right for a right key and as much to the left for a left key,
    so both together leave it where it was; in a tick without the boat the
    keys do not touch it. *)
Theorem steering_rate :
  forall now dt st,
    (forall b, boatContainer st = Some b ->
       boatYaw (tick now dt st) =
       boatYaw st + turnSpeed * dt * (ind (turnRight (inputMap st))
                                      - ind (turnLeft (inputMap st)))) /\
    (boatContainer st = None -> boatYaw (tick now dt st) = boatYaw st).
Proof.
  intros now dt st. split.
  - intros b Hb. rewrite (tick_boatYaw now dt st b Hb). unfold steer, ind.
    destruct (turnLeft (inputMap st)), (turnRight (inputMap st)); ring.
  - intros Hb. unfold tick. now rewrite Hb.
Qed.

Lemma steering_rate_witness :
  let st := onKey "d" "keydown" (onBoatLoaded (createScene [] V3.Zero)) in
  boatYaw (tick 0 16 st) = boatYaw st + turnSpeed * 16 * (1 - 0).
Proof.
  cbv zeta.
  destruct (steering_rate 0 16
              (onKey "d" "keydown" (onBoatLoaded (createScene [] V3.Zero))))
    as [Hturn _].
  exact (Hturn _ eq_refl).
Defined.

Lemma translate_net m yaw p :
  vx (translate m yaw p) =
    vx p + moveSpeed * (ind (goBack m) - ind (goForward m)) * cos yaw /\
  vz (translate m yaw p) =
    vz p + moveSpeed * (ind (goBack m) - ind (goForward m)) * sin (- yaw).
Proof.
  unfold translate, V3.add, V3.scale, forward, ind.
  destruct (goForward m), (goBack m); cbn [vx vy vz]; split; ring.
Qed.

(** X5: for a boat at least [moveSpeed] inside the world, a tick moves
    [(x, z)] by [moveSpeed * (back - forward) * (cos yaw, sin (- yaw))],
    where [back] and [forward] are 1 for a pressed key and 0 otherwise:
    the back key is the forward step reversed, both keys together cancel,
    and with neither the boat stays in place. *)
Theorem translation_step :
  forall now dt st b,
    boatContainer st = Some b ->
    Rabs (vx (position b)) <= HALF_WORLD_SIZE - moveSpeed ->
    Rabs (vz (position b)) <= HALF_WORLD_SIZE - moveSpeed ->
    let yaw := vy (rotation b) in
    let net := ind (goBack (inputMap st)) - ind (goForward (inputMap st)) in
    exists b',
      boatContainer (tick now dt st) = Some b' /\
      vx (position b') = vx (position b) + moveSpeed * net * cos yaw /\
      vz (position b') = vz (position b) + moveSpeed * net * sin (- yaw).
Proof.
  intros now dt st b Hb Hx Hz yaw net.
  eexists. split; [apply (tick_boat now dt st b Hb) |].
  rewrite boatTick_position. unfold wrapPosition. cbn [vx vz].
  destruct (translate_net (inputMap st) yaw
              (mkVector3 (vx (position b))
                 (lerp (vy (position b))
                    (hostWave (vx (position b)) (vz (position b)) now
                       (newFrequency now) * newAmplitude now
                       * boatWaveAmplitude + BOAT_BASE_HEIGHT) 0.05)
                 (vz (position b)))) as [Hnx Hnz].
  fold yaw. rewrite Hnx, Hnz. cbn [vx vz]. fold net.
  apply Rabs_le_elim in Hx. apply Rabs_le_elim in Hz.
  assert (Hnet : -1 <= net <= 1).
  { unfold net, ind.
    destruct (goBack (inputMap st)), (goForward (inputMap st)); lra. }
  pose proof (COS_bound yaw) as Hc.
  pose proof (SIN_bound (- yaw)) as Hs.
  assert (Hms : moveSpeed = 0.5) by reflexivity.
  assert (Hnc : -1 <= net * cos yaw <= 1) by (split; nra).
  assert (Hns : -1 <= net * sin (- yaw) <= 1) by (split; nra).
  rewrite !wrap_inside; [split; reflexivity | |].
  - rewrite Rmult_assoc. split; nra.
  - rewrite Rmult_assoc. split; nra.
Qed.

Lemma translation_step_witness :
  let st := onKey "s" "keydown"
              (onKey "w" "keydown" (onBoatLoaded (createScene [] V3.Zero))) in
  exists b',
    boatContainer (tick 0 16 st) = Some b' /\
    vx (position b') = 0 + moveSpeed * (1 - 1) * cos PI.
Proof.
  cbv zeta.
  pose proof HALF_WORLD_SIZE_val as Hh.
  destruct (translation_step 0 16
              (onKey "s" "keydown"
                 (onKey "w" "keydown" (onBoatLoaded (createScene [] V3.Zero))))
              (mkMesh (mkVector3 0 BOAT_BASE_HEIGHT 0)
                      (mkVector3 0 BOAT_ROTATION_Y 0)) eq_refl)
    as (b' & Hb' & Hx' & _).
  - cbn [position vx]. rewrite Rabs_R0. unfold moveSpeed. lra.
  - cbn [position vz]. rewrite Rabs_R0. unfold moveSpeed. lra.
  - exists b'. split; [exact Hb' | exact Hx'].
Defined.

(** ** Yaw smoothing over several ticks *)

Lemma ticks_inputMap frames st : inputMap (ticks frames st) = inputMap st.
Proof.
  induction frames as [| fr frames IH] using rev_ind; [reflexivity |].
  rewrite ticks_snoc.
  destruct (tick_frame (fst fr) (snd fr) (ticks frames st)) as [-> _].
  exact IH.
Qed.

Lemma boatTick_yaw m now dt a f yawTarget b :
  vy (rotation (fst (boatTick m now dt a f yawTarget b)))
  = lerp (vy (rotation b)) (steer m dt yawTarget) 0.1.
Proof. reflexivity. Qed.

(** X6: while no turn key is pressed, the yaw target stays fixed and each
    tick shrinks the distance between the boat's yaw and the target to 0.9
    of what it was: after [n] ticks it is [0.9 ^ n] times the initial
    distance, whatever the frame times. *)
Theorem yaw_settles :
  forall frames st b,
    boatContainer st = Some b ->
    turnLeft (inputMap st) = false ->
    turnRight (inputMap st) = false ->
    exists b',
      boatContainer (ticks frames st) = Some b' /\
      boatYaw (ticks frames st) = boatYaw st /\
      vy (rotation b') - boatYaw st
      = 0.9 ^ length frames * (vy (rotation b) - boatYaw st).
Proof.
  intros frames st b Hb Hleft Hright.
  induction frames as [| fr frames IH] using rev_ind.
  - exists b. cbn. repeat split; [exact Hb | lra].
  - destruct IH as (b1 & Hb1 & Hyaw1 & Herr1).
    rewrite ticks_snoc, length_app. cbn [length].
    assert (Hsteer : steer (inputMap (ticks frames st)) (snd fr)
                       (boatYaw (ticks frames st)) = boatYaw st).
    { rewrite ticks_inputMap. unfold steer.
      now rewrite Hleft, Hright, Hyaw1. }
    eexists. split; [apply (tick_boat _ _ _ b1 Hb1) |]. split.
    + rewrite (tick_boatYaw _ _ _ b1 Hb1). exact Hsteer.
    + rewrite boatTick_yaw, Hsteer, lerp_error.
      replace (length frames + 1)%nat with (S (length frames)) by lia.
      rewrite <- tech_pow_Rmult, Herr1. lra.
Qed.

Lemma yaw_settles_witness :
  let st := onBoatLoaded (createScene [] V3.Zero) in
  exists b',
    boatContainer (ticks [(0, 16); (0.016, 16)] st) = Some b' /\
    vy (rotation b') - boatYaw st = 0.9 ^ 2 * (PI - boatYaw st).
Proof.
  cbv zeta.
  destruct (yaw_settles [(0, 16); (0.016, 16)]
              (onBoatLoaded (createScene [] V3.Zero))
              (mkMesh (mkVector3 0 BOAT_BASE_HEIGHT 0)
                      (mkVector3 0 BOAT_ROTATION_Y 0))
              eq_refl eq_refl eq_refl) as (b' & Hb' & _ & Herr).
  exists b'. split; [exact Hb' | exact Herr].
Defined.

(** ** The input map *)

(** An event that writes the entry of key [k]. *)
Definition writesKey (k : string) (e : Event) : Prop :=
  match e with
  | Key k' _ => k' = k
  | _ => False
  end.

Lemma step_keeps_key k e st :
  ~ writesKey k e ->
  pressed (inputMap (step e st)) k = pressed (inputMap st) k.
Proof.
  intros Hk. destruct e as [now dt | k' ty | | |]; cbn [step].
  - now destruct (tick_frame now dt st) as [-> _].
  - cbn [onKey inputMap]. unfold pressed.
    rewrite lookup_insert_ne; [reflexivity |].
    intros Heq. apply Hk. exact Heq.
  - reflexivity.
  - reflexivity.
  - reflexivity.
Qed.

Lemma run_keeps_key k es :
  Forall (fun e => ~ writesKey k e) es ->
  forall st, pressed (inputMap (run es st)) k = pressed (inputMap st) k.
Proof.
  induction 1 as [| e es He Hes IH]; intros st; [reflexivity |].
  rewrite run_cons, IH. now apply step_keeps_key.
Qed.

(** X7: a key reads pressed exactly when its last event was a "keydown":
    after a key event the entry holds through ticks, reflection passes, the
    loading of the boat and events of other keys, until the next event of
    that key; a key with no event so far reads not pressed. *)
Theorem key_state_persists :
  forall k es,
    Forall (fun e => ~ writesKey k e) es ->
    (forall ty st,
       pressed (inputMap (run es (onKey k ty st))) k
       = bool_decide (ty = "keydown"%string)) /\
    (forall cs p, pressed (inputMap (run es (createScene cs p))) k = false).
Proof.
  intros k es Hes. split.
  - intros ty st. rewrite (run_keeps_key k es Hes).
    cbn [onKey inputMap]. unfold pressed.
    now rewrite lookup_insert_eq.
  - intros cs p. rewrite (run_keeps_key k es Hes). reflexivity.
Qed.

Lemma key_state_persists_witness :
  let es := [Tick 0 16; Key "a" "keydown"; BoatLoaded; Key "a" "keyup";
             BeforeReflection] in
  pressed (inputMap (run es (onKey "w" "keydown" (createScene [] V3.Zero)))) "w"
  = true /\
  pressed (inputMap (run es (onKey "w" "keyup" (createScene [] V3.Zero)))) "w"
  = false.
Proof.
  cbv zeta.
  assert (Hes : Forall (fun e => ~ writesKey "w" e)
                  [Tick 0 16; Key "a" "keydown"; BoatLoaded; Key "a" "keyup";
                   BeforeReflection]).
  { repeat constructor; cbn; try tauto; discriminate. }
  destruct (key_state_persists "w" _ Hes) as [Hkey _].
  split; apply Hkey.
Defined.

(** ** The camera and the boat *)





(** ** The reflection pass *)

(** The three switches of the reflection pass. *)
Definition passClosed (st : Scene) : Prop :=
  activeCamera st = PrimaryCamera /\ waterVisible st = true /\
  clipPlane st = None.

Definition passOpen (st : Scene) : Prop :=
  activeCamera st = ReflectionCamera /\ waterVisible st = false /\
  exists pl, clipPlane st = Some pl /\
             planeNormal pl = mkVector3 0 1 0 /\ planeD pl = 0.

Lemma step_waterPosition e st : waterPosition (step e st) = waterPosition st.
Proof.
  destruct e as [now dt | key type | | |]; try reflexivity.
  cbn [step]. now destruct (tick_frame now dt st) as (_ & _ & _ & _ & _ & _ & -> & _).
Qed.

Lemma reachable_waterPosition st :
  reachable st -> waterPosition st = V3.Zero.
Proof.
  induction 1 as [cs p | e st Hreach IH]; [reflexivity |].
  now rewrite step_waterPosition.
Qed.

(** X10: in every reachable scene the reflection pass is either closed
    (primary camera active, water visible, no clip plane) or open
    (reflection camera active, water hidden, clip plane [y = 0] with normal
    [(0, 1, 0)]); the water is never hidden while the primary camera
    renders. *)
Theorem reflection_pass_switches :
  forall st, reachable st -> passClosed st \/ passOpen st.
Proof.
  intros st Hreach.
  induction Hreach as [cs p | e st Hreach IH].
  - left. repeat split.
  - pose proof (reachable_waterPosition st Hreach) as Hwater.
    destruct e as [now dt | key type | | |]; cbn [step].
    + destruct (tick_frame now dt st)
        as (_ & _ & _ & _ & Hcam & Hvis & _ & Hclip).
      unfold passClosed, passOpen. rewrite Hcam, Hvis, Hclip. exact IH.
    + exact IH.
    + exact IH.
    + right. unfold passOpen, onBeforeRender.
      cbn [activeCamera waterVisible clipPlane].
      repeat split. eexists. split; [reflexivity |].
      cbn [planeNormal planeD]. split; [reflexivity |].
      rewrite Hwater. unfold V3.Dot, waterNormal, V3.Zero. cbn [vx vy vz]. ring.
    + left. repeat split.
Qed.

Lemma reflection_pass_switches_witness :
  passClosed (onAfterRender (onBeforeRender (createScene [] V3.Zero))) \/
  passOpen (onAfterRender (onBeforeRender (createScene [] V3.Zero))).
Proof.
  apply (reflection_pass_switches
           (step AfterReflection
              (step BeforeReflection (createScene [] V3.Zero)))).
  do 2 apply reach_step. apply reach_init.
Defined.

(** X11: the pre-pass followed by the post-pass changes nothing but the
    reflection camera: the switches are back (primary camera, water
    visible, no clip plane) and the boat, the yaw target, the clock, the
    keys, the clouds, the primary camera, the uniforms and the lighting
    are as before the pass. *)
Theorem reflection_pass_brackets :
  forall st,
    let st' := onAfterRender (onBeforeRender st) in
    activeCamera st' = PrimaryCamera /\ waterVisible st' = true /\
    clipPlane st' = None /\
    boatContainer st' = boatContainer st /\ boatYaw st' = boatYaw st /\
    timeOfDay st' = timeOfDay st /\ inputMap st' = inputMap st /\
    clouds st' = clouds st /\ camera st' = camera st /\
    waterPosition st' = waterPosition st /\
    uniforms st' = uniforms st /\ lighting st' = lighting st /\
    (passClosed st ->
     st' = mkScene (boatContainer st) (boatYaw st) (timeOfDay st)
             (inputMap st) (clouds st) (camera st)
             (mkCamera (reflectedPos (camera st)) (reflectedTarget (camera st)))
             (activeCamera st) (waterVisible st) (waterPosition st)
             (clipPlane st) (uniforms st) (lighting st)).
Proof.
  intros st. cbv zeta. repeat split.
  intros (Hcam & Hvis & Hclip).
  unfold onAfterRender, onBeforeRender. cbn.
  now rewrite Hcam, Hvis, Hclip.
Qed.

Lemma reflection_pass_brackets_witness :
  let st := createScene [] (mkVector3 1 2 3) in
  onAfterRender (onBeforeRender st)
  = mkScene (boatContainer st) (boatYaw st) (timeOfDay st)
      (inputMap st) (clouds st) (camera st)
      (mkCamera (reflectedPos (camera st)) (reflectedTarget (camera st)))
      (activeCamera st) (waterVisible st) (waterPosition st)
      (clipPlane st) (uniforms st) (lighting st).
Proof.
  cbv zeta.
  destruct (reflection_pass_brackets (createScene [] (mkVector3 1 2 3)))
    as (_ & _ & _ & _ & _ & _ & _ & _ & _ & _ & _ & _ & Hsame).
  apply Hsame. repeat split.
Defined.

(** X12: the target the pre-pass gives the reflection camera is the mirror
    image of the primary camera's target in the plane [y = 0], just as its
    position is the mirror image of the primary position; so the reflected
    view direction is the primary one with its height negated and the two
    cameras are equally far from their targets. *)
Theorem reflection_target_is_mirror :
  forall st,
    let pos := camPosition (camera st) in
    let target := camTarget (camera st) in
    let rpos := camPosition (reflectionCamera (onBeforeRender st)) in
    let rtarget := camTarget (reflectionCamera (onBeforeRender st)) in
    rpos = mkVector3 (vx pos) (- vy pos) (vz pos) /\
    rtarget = mkVector3 (vx target) (- vy target) (vz target) /\
    V3.subtract rtarget rpos
    = mkVector3 (vx target - vx pos) (- (vy target - vy pos))
                (vz target - vz pos) /\
    V3.Dot (V3.subtract rtarget rpos) (V3.subtract rtarget rpos)
    = V3.Dot (V3.subtract target pos) (V3.subtract target pos).
Proof.
  intros st. cbv zeta.
  cbn [onBeforeRender reflectionCamera camPosition camTarget].
  unfold reflectedTarget, reflectedPos.
  rewrite !Reflect_waterNormal.
  unfold V3.add, V3.subtract, V3.Dot. cbn [vx vy vz].
  repeat split; first [ring | f_equal; ring].
Qed.

(** ** Clouds *)

Definition unitDraw (d : R * R * R) : Prop :=
  let '(rx, rz, ry) := d in
  0 <= rx < 1 /\ 0 <= rz < 1 /\ 0 <= ry < 1.

(** The band the clouds live in: 1.5 half-worlds on x and z, 25 around the
    height 250. *)
Definition cloudBand (c : Vector3) : Prop :=
  -30000 <= vx c <= 30000 /\ -30000 <= vz c <= 30000 /\ 225 <= vy c <= 275.

Definition cloudsOk (st : Scene) : Prop :=
  length (clouds st) = numberOfClouds /\ Forall cloudBand (clouds st).

(** A frame time that is not negative. *)
Definition forwardInTime (e : Event) : Prop :=
  match e with
  | Tick _ dt => 0 <= dt
  | _ => True
  end.

Lemma cloudSpawn_band rx rz ry :
  unitDraw (rx, rz, ry) -> cloudBand (cloudSpawn rx rz ry).
Proof.
  intros (Hx & Hz & Hy). unfold cloudBand, cloudSpawn, WORLD_SIZE.
  cbn [vx vy vz]. lra.
Qed.

Lemma cloudTick_band dt c : 0 <= dt -> cloudBand c -> cloudBand (cloudTick dt c).
Proof.
  intros Hdt (Hx & Hz & Hy). unfold cloudBand, cloudTick.
  cbn [vx vy vz]. repeat split; try lra;
    destruct (Rgt_dec (vx c + dt * 0.01) (HALF_WORLD_SIZE * 1.5)) as [Hgt | Hle];
    unfold HALF_WORLD_SIZE, WORLD_SIZE in *; lra.
Qed.

Lemma step_cloudsOk e st :
  forwardInTime e -> cloudsOk st -> cloudsOk (step e st).
Proof.
  intros He [Hlen Hband].
  destruct e as [now dt | key type | | |]; try (split; assumption).
  cbn [step]. unfold cloudsOk.
  destruct (tick_frame now dt st) as (_ & _ & -> & _).
  split.
  - now rewrite length_map.
  - apply Forall_map. eapply Forall_impl; [exact Hband |].
    intros c Hc. now apply cloudTick_band.
Qed.

(** X13: when every draw of [Math.random] lies in [0, 1), the 30 clouds
    start with x and z in [-30000, 30000] and height in [225, 275], and
    through any events whose frame times are not negative they remain 30
    clouds inside that band. *)
Theorem clouds_stay_in_band :
  forall draw p es,
    (forall i, unitDraw (draw i)) ->
    Forall forwardInTime es ->
    length (clouds (run es (createScene (spawnClouds draw) p))) = 30%nat /\
    Forall cloudBand (clouds (run es (createScene (spawnClouds draw) p))).
Proof.
  intros draw p es Hdraw Hes.
  assert (Hinit : cloudsOk (createScene (spawnClouds draw) p)).
  { split; cbn [createScene clouds]; unfold spawnClouds.
    - now rewrite length_map, length_seq.
    - apply Forall_map. apply Forall_forall. intros i _.
      specialize (Hdraw i). destruct (draw i) as [[rx rz] ry].
      now apply cloudSpawn_band. }
  revert Hinit. generalize (createScene (spawnClouds draw) p) as st.
  induction Hes as [| e es He Hes IH]; intros st Hok; [exact Hok |].
  rewrite run_cons. apply IH. now apply step_cloudsOk.
Qed.

Lemma clouds_stay_in_band_witness :
  let draw := fun _ : nat => (0.5, 0.25, 0.75) in
  length (clouds (run [Tick 0 16; BoatLoaded]
                    (createScene (spawnClouds draw) V3.Zero))) = 30%nat.
Proof.
  cbv zeta.
  refine (proj1 (clouds_stay_in_band (fun _ => (0.5, 0.25, 0.75)) V3.Zero
                   [Tick 0 16; BoatLoaded] _ _)).
  - intros _. cbn. lra.
  - repeat constructor. cbn. lra.
Defined.

Definition drifted (d : R) (c : Vector3) : Vector3 :=
  mkVector3 (vx c + 0.01 * d) (vy c) (vz c).

Lemma elapsed_nonneg frames :
  Forall (fun fr => 0 <= snd fr) frames -> 0 <= elapsed frames.
Proof.
  induction 1 as [| fr frames Hfr Hfrs IH]; cbn [elapsed foldr]; [lra |].
  fold (elapsed frames). lra.
Qed.

(** X14: over any frames with non-negative times, a cloud field none of
    whose clouds would pass x = 30000 has moved by 0.01 per unit of
    elapsed time along x and not at all in y or z: the drift depends on the
    total time only, not on how it is cut into frames. *)
Theorem cloud_drift :
  forall frames st,
    Forall (fun fr => 0 <= snd fr) frames ->
    Forall (fun c => vx c + 0.01 * elapsed frames <= 30000) (clouds st) ->
    clouds (ticks frames st) = map (drifted (elapsed frames)) (clouds st).
Proof.
  intros frames st.
  induction frames as [| fr frames IH] using rev_ind; intros Hdt Hroom.
  - cbn [ticks foldl elapsed foldr]. rewrite <- (map_id (clouds st)) at 1.
    apply map_ext_in. intros [x y z] _. unfold drifted. cbn [vx vy vz].
    f_equal. lra.
  - apply Forall_app in Hdt. destruct Hdt as [Hdt Hfr].
    apply Forall_inv in Hfr.
    pose proof (elapsed_nonneg frames Hdt) as Hpos.
    rewrite elapsed_snoc in Hroom |- *.
    rewrite ticks_snoc.
    destruct (tick_frame (fst fr) (snd fr) (ticks frames st)) as (_ & _ & -> & _).
    rewrite IH; [| exact Hdt |].
    + rewrite map_map. apply map_ext_in. intros c Hc.
      rewrite Forall_forall in Hroom. specialize (Hroom c).
      assert (Hc' : vx c + 0.01 * (elapsed frames + snd fr) <= 30000).
      { apply Hroom. now apply list_elem_of_In. }
      unfold cloudTick, drifted. cbn [vx vy vz].
      destruct (Rgt_dec (vx c + 0.01 * elapsed frames + snd fr * 0.01)
                  (HALF_WORLD_SIZE * 1.5)) as [Hgt | Hle].
      * unfold HALF_WORLD_SIZE, WORLD_SIZE in Hgt. lra.
      * f_equal. lra.
    + eapply Forall_impl; [exact Hroom |].
      intros c Hc. cbn beta in Hc. lra.
Qed.

Lemma cloud_drift_witness :
  clouds (ticks [(0, 16); (0.016, 17)]
            (createScene [mkVector3 100 250 (-40)] V3.Zero))
  = map (drifted (elapsed [(0, 16); (0.016, 17)])) [mkVector3 100 250 (-40)].
Proof.
  apply cloud_drift.
  - repeat constructor; cbn; lra.
  - repeat constructor. cbn. lra.
Defined.

(** ** Day and night *)

Lemma cycle_is_cos phase : cycle phase = cos phase.
Proof. unfold cycle. apply sin_quarter_ahead. Qed.

Lemma cos_4PI3 : cos (4 * (PI / 3)) = -1 / 2.
Proof.
  replace (4 * (PI / 3)) with (PI / 3 + PI) by lra.
  rewrite neg_cos, cos_PI3. lra.
Qed.

Lemma inclinationFactor_zero_iff phase :
  inclinationFactor phase = 0 <-> cos phase <= -1 / 2.
Proof.
  rewrite inclinationFactor_unfold, cycle_is_cos. unfold Rmax.
  destruct (Rle_dec 0 (2 * cos phase + 1)); split; intros; lra.
Qed.

(** X15: within one turn of the phase, from 0 to [2 PI], the daylight factor
    is 0 exactly on the middle third, from [2 PI / 3] to [4 PI / 3]: night
    takes one third of the cycle. *)
Theorem night_is_middle_third :
  forall phase,
    0 <= phase <= 2 * PI ->
    (inclinationFactor phase = 0 <->
     2 * (PI / 3) <= phase <= 4 * (PI / 3)).
Proof.
  intros phase Hrange. rewrite inclinationFactor_zero_iff.
  pose proof PI_RGT_0 as Hpi.
  split.
  - intros Hcos. split.
    + destruct (Rle_lt_dec (2 * (PI / 3)) phase) as [Hle | Hlt]; [exact Hle |].
      pose proof (cos_decreasing_1 phase (2 * (PI / 3))) as Hdec.
      rewrite cos_2PI3 in Hdec. lra.
    + destruct (Rle_lt_dec phase (4 * (PI / 3))) as [Hle | Hlt]; [exact Hle |].
      pose proof (cos_increasing_1 (4 * (PI / 3)) phase) as Hinc.
      rewrite cos_4PI3 in Hinc. lra.
  - intros [Hlo Hhi].
    destruct (Rle_lt_dec phase PI) as [Hle | Hlt].
    + pose proof (cos_decr_1 (2 * (PI / 3)) phase) as Hdec.
      rewrite cos_2PI3 in Hdec. lra.
    + pose proof (cos_incr_1 phase (4 * (PI / 3))) as Hinc.
      rewrite cos_4PI3 in Hinc. lra.
Qed.

Lemma night_is_middle_third_witness :
  inclinationFactor PI = 0 <-> 2 * (PI / 3) <= PI <= 4 * (PI / 3).
Proof.
  apply night_is_middle_third.
  pose proof PI_RGT_0. lra.
Defined.

(** X16: the daylight factor repeats when the phase advances by [2 PI], and
    the wave strength, amplitude and frequency repeat when the time
    advances by [40 PI] seconds. *)
Theorem cycles_are_periodic :
  (forall phase, inclinationFactor (phase + 2 * PI) = inclinationFactor phase) /\
  (forall now,
     waveStrength (now + 40 * PI) = waveStrength now /\
     newAmplitude (now + 40 * PI) = newAmplitude now /\
     newFrequency (now + 40 * PI) = newFrequency now).
Proof.
  split.
  - intros phase. rewrite !inclinationFactor_unfold, !cycle_is_cos.
    replace (phase + 2 * PI) with (phase + 2 * INR 1 * PI) by (simpl; lra).
    now rewrite cos_period.
  - intros now.
    assert (Hs : waveStrength (now + 40 * PI) = waveStrength now).
    { unfold waveStrength.
      replace ((now + 40 * PI) * 0.05) with (now * 0.05 + 2 * INR 1 * PI)
        by (simpl; lra).
      now rewrite sin_period. }
    unfold newAmplitude, newFrequency. now rewrite Hs.
Qed.

Lemma tick_lighting now dt st :
  lighting (tick now dt st) =
  let k := inclinationFactor (timeOfDay st + dayNightCycleSpeed * dt) in
  mkLighting (0.2 + 0.8 * k)
    (lerpColor nightHemiColor daySunColor k)
    (lerpColor nightHemiColor dayHemiColor k)
    (0.4 + 0.6 * k) (1.0 + 1.0 * k).
Proof.
  unfold tick.
  destruct (boatContainer st) as [b|]; [| reflexivity].
  now destruct (boatTick _ _ _ _ _ _ b).
Qed.

Lemma inclinationFactor_bounds phase : 0 <= inclinationFactor phase <= 3.
Proof.
  rewrite inclinationFactor_unfold.
  pose proof (cycle_range phase). split; [apply Rmax_l | apply Rmax_lub; lra].
Qed.

(** X17: after any tick the sky inclination lies in [0.2, 2.6], the
    hemispheric light's intensity in [0.4, 2.2] and the sun light's in
    [1, 4]; while the daylight factor is 0 they are 0.2, 0.4 and 1, and
    both the sun's emissive colour and the hemispheric colour are the
    night colour [(0.01, 0.02, 0.05)]. *)
Theorem lighting_ranges :
  forall now dt st,
    let l := lighting (tick now dt st) in
    0.2 <= skyInclination l <= 2.6 /\
    0.4 <= hemiIntensity l <= 2.2 /\
    1 <= sunIntensity l <= 4 /\
    (inclinationFactor (timeOfDay (tick now dt st)) = 0 ->
     skyInclination l = 0.2 /\ hemiIntensity l = 0.4 /\ sunIntensity l = 1 /\
     sunEmissive l = nightHemiColor /\ hemiDiffuse l = nightHemiColor).
Proof.
  intros now dt st. cbv zeta.
  destruct (tick_frame now dt st) as (_ & -> & _).
  rewrite tick_lighting. cbv zeta.
  cbn [skyInclination hemiIntensity sunIntensity sunEmissive hemiDiffuse].
  pose proof (inclinationFactor_bounds (timeOfDay st + dayNightCycleSpeed * dt))
    as Hk.
  split; [lra |]. split; [lra |]. split; [lra |].
  intros ->. unfold lerpColor, nightHemiColor. cbn [cr cg cb].
  repeat split; try lra; f_equal; lra.
Qed.

Lemma lighting_ranges_witness :
  let l := lighting (tick 0 0 (createScene [] V3.Zero)) in
  skyInclination l = 0.2 /\ hemiIntensity l = 0.4 /\ sunIntensity l = 1 /\
  sunEmissive l = nightHemiColor /\ hemiDiffuse l = nightHemiColor.
Proof.
  cbv zeta.
  destruct (lighting_ranges 0 0 (createScene [] V3.Zero))
    as (_ & _ & _ & Hnight).
  apply Hnight.
  destruct (tick_frame 0 0 (createScene [] V3.Zero)) as (_ & -> & _).
  cbn [createScene timeOfDay].
  apply inclinationFactor_zero_iff.
  replace (PI + dayNightCycleSpeed * 0) with PI by lra.
  rewrite cos_PI. lra.
Defined.

Lemma step_timeOfDay e st :
  timeOfDay (step e st) =
  match e with
  | Tick _ dt => timeOfDay st + dayNightCycleSpeed * dt
  | _ => timeOfDay st
  end.
Proof.
  destruct e as [now dt | key type | | |]; try reflexivity.
  cbn [step]. now destruct (tick_frame now dt st) as (_ & -> & _).
Qed.

(** The frame times of the ticks among some events, summed. *)
Definition tickTime (es : list Event) : R :=
  foldr (fun e acc => match e with Tick _ dt => dt + acc | _ => acc end) 0 es.

(** X18: the phase of the day-night clock after any events is the phase
    before plus [dayNightCycleSpeed] times the summed frame times of the
    ticks among them; key events, the boat's loading and reflection passes
    do not move it, and neither does the way the time is cut into
    frames. *)
Theorem clock_advance :
  forall es st,
    timeOfDay (run es st) = timeOfDay st + dayNightCycleSpeed * tickTime es.
Proof.
  induction es as [| e es IH]; intros st.
  - cbn. lra.
  - rewrite run_cons, IH, step_timeOfDay.
    destruct e; cbn [tickTime foldr]; fold (tickTime es); lra.
Qed.

(** ** More on the boundary wrap *)

(** X19: the wrap leaves a coordinate unchanged exactly when it lies within
    [- halfWorldSize, halfWorldSize], and wrapping twice is the same as
    wrapping once. *)
Theorem wrap_fixed_points :
  forall c,
    (wrap c = c <-> - HALF_WORLD_SIZE <= c <= HALF_WORLD_SIZE) /\
    wrap (wrap c) = wrap c.
Proof.
  intros c. pose proof HALF_WORLD_SIZE_val as Hh. split.
  - split; [| apply wrap_inside].
    unfold wrap.
    destruct (Rgt_dec c HALF_WORLD_SIZE); [lra |].
    destruct (Rlt_dec c (- HALF_WORLD_SIZE)); lra.
  - apply wrap_inside.
    pose proof (wrap_bounded c) as Hb. now apply Rabs_le_elim in Hb.
Qed.

Lemma wrap_fixed_points_witness : wrap 19999.5 = 19999.5.
Proof.
  apply (proj1 (wrap_fixed_points 19999.5)).
  rewrite HALF_WORLD_SIZE_val. lra.
Defined.

(** ** The water fragment shader *)

Lemma glClamp_unit x :
  0 <= glClamp x 0 1 <= 1 /\
  (1 <= x -> glClamp x 0 1 = 1) /\
  (x <= 0 -> glClamp x 0 1 = 0) /\
  (0 <= x <= 1 -> glClamp x 0 1 = x).
Proof.
  unfold glClamp, Rmin, Rmax.
  destruct (Rle_dec x 0); destruct (Rle_dec _ 1); repeat split; intros; lra.
Qed.

Lemma glClamp_monotone x y : x <= y -> glClamp x 0 1 <= glClamp y 0 1.
Proof.
  intros Hxy. unfold glClamp, Rmin, Rmax.
  destruct (Rle_dec x 0); destruct (Rle_dec y 0);
    repeat match goal with |- context [Rle_dec ?a ?b] => destruct (Rle_dec a b) end;
    lra.
Qed.

Lemma glMix_between a b t :
  0 <= t <= 1 -> Rmin a b <= glMix a b t <= Rmax a b.
Proof.
  intros Ht. unfold glMix, Rmin, Rmax.
  destruct (Rle_dec a b); split; nra.
Qed.

Lemma mixColor_ends a b :
  mixColor a b 0 = a /\ mixColor a b 1 = b.
Proof.
  destruct a as [ar ag ab], b as [br bg bb]. unfold mixColor, glMix.
  cbn [cr cg cb]. split; f_equal; ring.
Qed.

(** X20: for a fog range with [start < end], the fog factor of the water
    shader lies in [0, 1] and does not grow with the distance; up to
    [start] the fragment keeps its colour, from [end] on it has the fog
    colour. *)
Theorem fog_blend :
  forall fstart fend fogColor finalColor,
    fstart < fend ->
    (forall d, 0 <= fogFactor fstart fend d <= 1) /\
    (forall d1 d2, d1 <= d2 ->
       fogFactor fstart fend d2 <= fogFactor fstart fend d1) /\
    (forall d, d <= fstart ->
       applyFog fogColor finalColor fstart fend d = finalColor) /\
    (forall d, fend <= d ->
       applyFog fogColor finalColor fstart fend d = fogColor).
Proof.
  intros fstart fend fogColor finalColor Hlt.
  assert (Hpos : 0 < / (fend - fstart)) by (apply Rinv_0_lt_compat; lra).
  assert (Hone : (fend - fstart) * / (fend - fstart) = 1)
    by (apply Rinv_r; lra).
  split; [| split; [| split]].
  - intros d. apply glClamp_unit.
  - intros d1 d2 Hd. unfold fogFactor. apply glClamp_monotone.
    unfold Rdiv. apply Rmult_le_compat_r; lra.
  - intros d Hd. unfold applyFog, fogFactor.
    destruct (glClamp_unit ((fend - d) / (fend - fstart))) as (_ & Hfull & _).
    rewrite Hfull; [apply mixColor_ends |].
    unfold Rdiv. rewrite <- Hone. apply Rmult_le_compat_r; lra.
  - intros d Hd. unfold applyFog, fogFactor.
    destruct (glClamp_unit ((fend - d) / (fend - fstart))) as (_ & _ & Hnone & _).
    rewrite Hnone; [apply mixColor_ends |].
    unfold Rdiv.
    replace 0 with (0 * / (fend - fstart)) by ring.
    apply Rmult_le_compat_r; lra.
Qed.

Lemma fog_blend_witness :
  fogStart = 2000 /\ fogEnd = 4000 /\
  forall c fogColor, applyFog fogColor c fogStart fogEnd 1500 = c.
Proof.
  assert (Hs : fogStart = 2000) by (unfold fogStart, WORLD_SIZE; lra).
  assert (He : fogEnd = 4000) by (unfold fogEnd, WORLD_SIZE; lra).
  split; [exact Hs |]. split; [exact He |].
  intros c fogColor.
  destruct (fog_blend fogStart fogEnd fogColor c) as (_ & _ & Hnear & _).
  - lra.
  - apply Hnear. lra.
Defined.

(** X21: for a dot product of at most 1 between the eye direction and the
    surface normal, the reflectance lies in [0.005, 0.405]; it is 0.005
    looking straight down the normal, 0.405 at grazing and back-facing
    angles, and it does not grow as the view steepens. *)
Theorem reflectance_range :
  forall d,
    d <= 1 ->
    0.005 <= reflectance d <= 0.405 /\
    (d <= 0 -> reflectance d = 0.405) /\
    (d = 1 -> reflectance d = 0.005) /\
    (forall d', d' <= d -> reflectance d <= reflectance d').
Proof.
  intros d Hd.
  assert (Hcube : forall u v, 0 <= u <= v -> u * u * u <= v * v * v).
  { intros u v [Hu Huv].
    assert (0 <= u * u <= v * v) by (split; nra). nra. }
  assert (Htheta : forall e, e <= 1 -> 0 <= 1 - Rmax e 0 <= 1).
  { intros e He. unfold Rmax. destruct (Rle_dec e 0); lra. }
  split; [| split; [| split]].
  - unfold reflectance. cbv zeta. pose proof (Htheta d Hd) as Hu.
    pose proof (Hcube 0 (1 - Rmax d 0)) as Hlo.
    pose proof (Hcube (1 - Rmax d 0) 1) as Hhi.
    split; lra.
  - intros Hneg. unfold reflectance. rewrite Rmax_right by exact Hneg. lra.
  - intros ->. unfold reflectance. rewrite Rmax_left by lra. lra.
  - intros d' Hd'. unfold reflectance. cbv zeta.
    pose proof (Htheta d Hd) as Hu.
    assert (Hle : 1 - Rmax d 0 <= 1 - Rmax d' 0).
    { unfold Rmax. destruct (Rle_dec d 0); destruct (Rle_dec d' 0); lra. }
    pose proof (Hcube (1 - Rmax d 0) (1 - Rmax d' 0)) as Hmono.
    lra.
Qed.

Lemma reflectance_range_witness :
  0.005 <= reflectance 0.5 <= 0.405.
Proof.
  refine (proj1 (reflectance_range 0.5 _)). lra.
Defined.

(** X22: whatever the noise sample and the blend intensity, the base water
    colour is a blend of the blue and the green the tick pushes: red in
    [0, 0.1], green in [0.2, 0.7], blue in [0.4, 0.6]. *)
Theorem water_tint_between :
  forall noiseX intensity,
    let c := baseWaterColor blueColor greenColor noiseX intensity in
    0 <= cr c <= 0.1 /\ 0.2 <= cg c <= 0.7 /\ 0.4 <= cb c <= 0.6.
Proof.
  intros noiseX intensity. cbv zeta. unfold baseWaterColor, mixColor.
  cbn [cr cg cb blueColor greenColor].
  destruct (glClamp_unit (noiseX * intensity + 0.5)) as [Ht _].
  pose proof (glMix_between 0.0 0.1 _ Ht) as Hr.
  pose proof (glMix_between 0.2 0.7 _ Ht) as Hg.
  pose proof (glMix_between 0.6 0.4 _ Ht) as Hb.
  rewrite Rmin_left, Rmax_right in Hr by lra.
  rewrite Rmin_left, Rmax_right in Hg by lra.
  rewrite Rmin_right, Rmax_left in Hb by lra.
  repeat split; lra.
Qed.

(** ** The loader callback *)





